(** * Cross-venue spread loggers: embedding and verified properties

    Shallow embedding of the quoting, round-trip, persistence, statistics,
    alert-deduplication and polling code of the arbitrage monitors:

    - [SpreadLogger]   : the chain-agnostic spread logger (spread-logger.js);
    - [ArbLogger]      : the Arbitrum spread logger (research/arb-spread-logger.js);
    - [PaperLogger]    : the paper-trade logger (helpers/logger.js);
    - [Poller]         : the timer-driven cycles (pollBlock of the Mantle
                         monitor, poll of the spread loggers).

    Numbers.  Percentages travel through the program as the strings made by
    [toFixed(4)] and are read back with [parseFloat]; such a string is
    modelled by the integer count of 1e-4 percent units it denotes (so 0.3 %
    is 3000), on which [parseFloat] is injective and monotone.  Token amounts
    are JavaScript bigints, modelled by [Z].  A JavaScript number is modelled
    by the rational value of the double, in [Q]; [JS.double] rounds a
    rational to the nearest binary64 value (ties to even), and is applied
    where the program divides the notional by the price and where the
    paper-trade logger parses and subtracts spreads.  The USD values and
    percentages of a round trip are computed on the exact values.  [NaN] and
    the infinities are outside the model, and a percentage that would be one
    of them is marked absent.  Time is the millisecond reading of
    [Date.now()], passed to each call.  Objects used as dictionaries are
    finite maps; their keys (pair names joined with venue names and sizes)
    are never names of [Object.prototype]. *)

From stdpp Require Import gmap strings list fin_maps pretty.
From Stdlib Require Import ZArith QArith Qround Qabs Qpower Lqa Lia.
From Stdlib Require SpecFloat.

Local Open Scope Z_scope.

(** ** JavaScript and ethers.js numerics *)

Module JS.

Definition pow10 (d : nat) : Z := 10 ^ Z.of_nat d.

(** *** Doubles

    A finite double is the rational it denotes.  [double q] is the double
    nearest to [q], a tie going to the even mantissa: the value of a number
    literal or of [parseFloat], and the result of an arithmetic operation
    whose exact result is [q].  (Results of magnitude [2^1024] and more are
    [Infinity] in JavaScript and outside the model.) *)

(** [floor (log2 a)] for a positive [a]. *)
Definition ilog2 (a : Q) : Z :=
  let e0 := Z.log2 (Qnum a) - Z.log2 (Zpos (Qden a)) in
  if Qle_bool (2 ^ e0) a then e0 else e0 - 1.

(** The nearest integer, a tie going to the even one. *)
Definition roundEven (x : Q) : Z :=
  let f := Qfloor x in
  match (x - inject_Z f ?= 1 # 2)%Q with
  | Lt => f
  | Gt => f + 1
  | Eq => if Z.even f then f else f + 1
  end.

(** Binary64: 53 bits of mantissa, the unit in the last place of a number
    in [[2^e, 2^(e+1))] being [2^(e-52)], and [2^-1074] below [2^-1022]. *)
Definition double (q : Q) : Q :=
  if Qeq_bool q 0 then 0%Q
  else
    let a := Qabs q in
    let e := Z.max (ilog2 a) (-1022) in
    let ulp := (2 ^ (e - 52))%Q in
    let r := Qred (inject_Z (roundEven (a / ulp)) * ulp) in
    if Qle_bool 0 q then r else (- r)%Q.

(** [x / y], [x - y] and [x < y] on doubles. *)
Definition div (x y : Q) : Q := double (x / y).
Definition sub (x y : Q) : Q := double (x - y).
Definition ltb (x y : Q) : bool := negb (Qle_bool y x).

(** [parseFloat(s)] for a decimal string [s] denoting [units] multiples of
    [10^-d]. *)
Definition parseFloat (d : nat) (units : Z) : Q :=
  double (inject_Z units / inject_Z (pow10 d)).

(** The value of a finite binary64 number of the standard library's
    specification of IEEE 754 arithmetic, and the number of an integer. *)
Definition ofSpecFloat (x : SpecFloat.spec_float) : Q :=
  match x with
  | SpecFloat.S754_finite s m e =>
      Qred ((if s then -1 else 1) * inject_Z (Zpos m) * 2 ^ e)%Q
  | _ => 0%Q
  end.

Definition specFloatOfZ (z : Z) : SpecFloat.spec_float :=
  SpecFloat.binary_normalize 53 1024 z 0 false.

(** [x.toFixed(d)] of the double of value [x], given as the integer count
    of [10^-d] units the result string denotes: the multiple of [10^-d]
    nearest to the value of the double, a tie going away from zero. *)
Definition toFixed (d : nat) (x : Q) : Z :=
  if Qle_bool 0 x
  then Qfloor (x * inject_Z (pow10 d) + (1 # 2))
  else - Qfloor (- x * inject_Z (pow10 d) + (1 # 2)).

(** [ethers.parseUnits(s, decimals)] for a string [s] of [d <= decimals]
    fractional digits denoting [units] multiples of [10^-d]. *)
Definition parseUnits (d : nat) (units : Z) (decimals : nat) : Z :=
  units * pow10 (decimals - d).

(** [Number(ethers.formatUnits(amount, decimals))] *)
Definition formatUnits (amount : Z) (decimals : nat) : Q :=
  inject_Z amount / inject_Z (pow10 decimals).

End JS.

(** ** The chain-agnostic spread logger (spread-logger.js) *)

Module SpreadLogger.

(** *** Configuration *)

Record Token := mkToken {
  address  : string;
  decimals : nat;
  priceUSD : option Q          (* [None]: the field is not set *)
}.

Inductive DexType := TyV3 | TyAlgebra | TyV2 | TyLB | TyOther.

Record DexConfig := mkDex {
  dx_type   : DexType;
  dx_quoter : string;
  dx_router : string
}.

Record Venue := mkVenue {
  dex : string;
  fee : option Z
}.

Record Pair := mkPair {
  p_name : string;
  token0 : string;
  token1 : string;
  venues : list Venue
}.

Record Config := mkConfig {
  dexes      : gmap string DexConfig;
  tokens     : gmap string Token;
  gasCostUSD : Q
}.

(** *** The venues' quoting entry points *)

Inductive AbiVersion := v1 | v2.

(** An [eth_call] leaving the process. *)
Inductive Call :=
| CallV3 (quoter tokenIn tokenOut : string) (amountIn fee : Z)
| CallAlgebra (abi : AbiVersion) (quoter tokenIn tokenOut : string) (amountIn : Z)
| CallV2 (router : string) (amountIn : Z) (path : list string)
| CallLB (quoter : string) (route : list string) (amountIn : Z).

Section Quoting.

(** The reasons a venue or the transport gives for rejecting a call. *)
Variable E : Type.

(** The decoded return data (the output tuple of the quoters, the
    [amounts] array of the router and of the LB quoter), or a rejection. *)
Inductive Reply := Returned (vals : list Z) | Rejected (e : E).

(** What the process can throw while quoting. *)
Inductive Thrown :=
| CallFailed (e : E)
| UnknownDex (name : string)
| UnknownDexType.

(** A value handed back by a quoter function: [None] is [undefined]. *)
Inductive Outcome := Return (r : option Z) | Throw (t : Thrown).

(** The network as the process sees it: the reply to the [n]-th call. *)
Definition World := nat -> Call -> Reply.

(** The mutable state of the quoting layer, with the calls made so far. *)
Record QState := mkQ {
  algebraAbiVersion : option AbiVersion;
  calls             : list Call
}.

Variable world : World.

Definition ethCall (c : Call) (st : QState) : Reply * QState :=
  (world (length (calls st)) c, mkQ (algebraAbiVersion st) (calls st ++ [c])).

Definition setAbi (v : AbiVersion) (st : QState) : QState :=
  mkQ (Some v) (calls st).

(** [quoteV3]: the first output of [quoteExactInputSingle]. *)
Definition quoteV3 (d : DexConfig) (tokenIn tokenOut : Token) (amountIn fee : Z)
    (st : QState) : Outcome * QState :=
  match ethCall (CallV3 (dx_quoter d) (address tokenIn) (address tokenOut) amountIn fee) st with
  | (Returned vals, st1) => (Return (vals !! 0%nat), st1)
  | (Rejected e, st1) => (Throw (CallFailed e), st1)
  end.

(** The second block of [quoteAlgebra]: the struct-argument call. *)
Definition quoteAlgebraV2 (d : DexConfig) (tokenIn tokenOut : Token) (amountIn : Z)
    (st : QState) : Outcome * QState :=
  match algebraAbiVersion st with
  | Some v1 => (Return None, st)
  | Some v2 | None =>
      match ethCall (CallAlgebra v2 (dx_quoter d) (address tokenIn) (address tokenOut) amountIn) st with
      | (Returned vals, st1) =>
          (Return (vals !! 0%nat),
           match algebraAbiVersion st1 with None => setAbi v2 st1 | Some _ => st1 end)
      | (Rejected e, st1) => (Throw (CallFailed e), st1)
      end
  end.

(** [quoteAlgebra]: the flat-argument call first unless the struct form is
    already known; a rejection is rethrown when the flat form is known and
    otherwise falls through to the second block. *)
Definition quoteAlgebra (d : DexConfig) (tokenIn tokenOut : Token) (amountIn : Z)
    (st : QState) : Outcome * QState :=
  match algebraAbiVersion st with
  | Some v2 => quoteAlgebraV2 d tokenIn tokenOut amountIn st
  | Some v1 | None =>
      match ethCall (CallAlgebra v1 (dx_quoter d) (address tokenIn) (address tokenOut) amountIn) st with
      | (Returned vals, st1) =>
          (Return (vals !! 0%nat),
           match algebraAbiVersion st1 with None => setAbi v1 st1 | Some _ => st1 end)
      | (Rejected e, st1) =>
          match algebraAbiVersion st1 with
          | Some v1 => (Throw (CallFailed e), st1)
          | _ => quoteAlgebraV2 d tokenIn tokenOut amountIn st1
          end
      end
  end.

(** [quoteV2]: [amounts[1]] of [getAmountsOut]. *)
Definition quoteV2 (d : DexConfig) (tokenIn tokenOut : Token) (amountIn : Z)
    (st : QState) : Outcome * QState :=
  match ethCall (CallV2 (dx_router d) amountIn [address tokenIn; address tokenOut]) st with
  | (Returned amounts, st1) => (Return (amounts !! 1%nat), st1)
  | (Rejected e, st1) => (Throw (CallFailed e), st1)
  end.

Definition MAX_UINT128 : Z := Z.shiftl 1 128 - 1.

(** [quoteLB]: the input is capped at [MAX_UINT128]; the output is the last
    element of the returned [amounts]. *)
Definition quoteLB (d : DexConfig) (tokenIn tokenOut : Token) (amountIn : Z)
    (st : QState) : Outcome * QState :=
  let safeAmountIn := if amountIn >? MAX_UINT128 then MAX_UINT128 else amountIn in
  match ethCall (CallLB (dx_quoter d) [address tokenIn; address tokenOut] safeAmountIn) st with
  | (Returned amounts, st1) => (Return (amounts !! (length amounts - 1)%nat), st1)
  | (Rejected e, st1) => (Throw (CallFailed e), st1)
  end.

Variable CONFIG : Config.

(** [venue.fee || 3000] *)
Definition feeOr (dflt : Z) (f : option Z) : Z :=
  match f with
  | Some x => if x =? 0 then dflt else x
  | None => dflt
  end.

(** [getQuote]: dispatch on the type of the venue's DEX. *)
Definition getQuote (venue : Venue) (tokenIn tokenOut : Token) (amountIn : Z)
    (st : QState) : Outcome * QState :=
  match dexes CONFIG !! dex venue with
  | None => (Throw (UnknownDex (dex venue)), st)
  | Some d =>
      match dx_type d with
      | TyV3 => quoteV3 d tokenIn tokenOut amountIn (feeOr 3000 (fee venue)) st
      | TyAlgebra => quoteAlgebra d tokenIn tokenOut amountIn st
      | TyV2 => quoteV2 d tokenIn tokenOut amountIn st
      | TyLB => quoteLB d tokenIn tokenOut amountIn st
      | TyOther => (Throw UnknownDexType, st)
      end
  end.

End Quoting.

Arguments Returned {E} vals.
Arguments Rejected {E} e.
Arguments CallFailed {E} e.
Arguments UnknownDex {E} name.
Arguments UnknownDexType {E}.
Arguments Return {E} r.
Arguments Throw {E} t.

(** *** Decoding, series of quotes, and stub venues *)

(** The reasons a stub venue gives for rejecting a call. *)
Inductive Rejection := WrongSchema | NoLiquidity | NoRoute | Unreachable.

(** What a quoter function makes of a reply whose first output is the
    amount. *)
Definition firstOutput {E} (r : Reply E) : Outcome E :=
  match r with
  | Returned vals => Return (vals !! 0%nat)
  | Rejected e => Throw (CallFailed e)
  end.

(** What [quoteLB] makes of a reply: the last element of [amounts]. *)
Definition lastOutput {E} (r : Reply E) : Outcome E :=
  match r with
  | Returned amounts => Return (amounts !! (length amounts - 1)%nat)
  | Rejected e => Throw (CallFailed e)
  end.

(** A series of Algebra quotes, in order. *)
Fixpoint quoteAlgebraAll {E} (world : World E)
    (reqs : list (DexConfig * Token * Token * Z)) (st : QState)
  : list (Outcome E) * QState :=
  match reqs with
  | [] => ([], st)
  | (d, tin, tout, a) :: rest =>
      let '(o, st1) := quoteAlgebra E world d tin tout a st in
      let '(os, st2) := quoteAlgebraAll world rest st1 in
      (o :: os, st2)
  end.

Definition algebraCall (v : AbiVersion) (r : DexConfig * Token * Token * Z) : Call :=
  let '(d, tin, tout, a) := r in
  CallAlgebra v (dx_quoter d) (address tin) (address tout) a.

(** Stub venues and tokens. *)

Definition camelot : DexConfig := mkDex TyAlgebra "0xQuoter" "".
Definition tokA : Token := mkToken "0xA" 18 (Some (2000 # 1)%Q).
Definition tokB : Token := mkToken "0xB" 18 None.

(** A venue that answers the flat form only. *)
Definition flatOnly : World Rejection := fun _ c =>
  match c with
  | CallAlgebra v1 _ _ _ a => Returned [2 * a; 100]
  | _ => Rejected WrongSchema
  end.

(** A flat-schema venue whose pool for the pair is empty: the flat call
    reverts for lack of liquidity, any other call for its wrong shape. *)
Definition dryPool : World Rejection := fun _ c =>
  match c with
  | CallAlgebra v1 _ _ _ _ => Rejected NoLiquidity
  | _ => Rejected WrongSchema
  end.

(** Two Algebra venues of different schemas: the first deployed with the
    flat form, the second with the struct form. *)
Definition twoSchemas : World Rejection := fun _ c =>
  match c with
  | CallAlgebra v1 "0xQuoter" _ _ a => Returned [a]
  | CallAlgebra v2 "0xOther" _ _ a => Returned [a]
  | _ => Rejected WrongSchema
  end.

(** *** Round trips *)

(** An element of [forwardQuotes]: [fq_amountOut] is [None] for [null]
    (the quote threw, [fq_error] holds what) and for [undefined]. *)
Record ForwardQuote {E : Type} := mkFQ {
  fq_venue     : Venue;
  fq_amountOut : option Z;
  fq_error     : option (Thrown E)
}.
Arguments ForwardQuote : clear implicits.

(** An element of the returned [results].  The two percentages are the
    [toFixed(4)] strings, in 1e-4 percent units; [None] stands for the
    non-finite strings a zero [inUSD] produces. *)
Record RoundTrip := mkTrip {
  direction   : string;
  notionalUSD : Q;
  inUSD       : Q;
  outUSD      : Q;
  netUSD      : Q;
  spreadPct   : option Z;
  netPct      : option Z
}.

Definition Qzero (x : Q) : bool := Qeq_bool x 0.

(** [(x / inUSD * 100).toFixed(4)] *)
Definition pctFixed (x inUSD : Q) : option Z :=
  if Qzero inUSD then None else Some (JS.toFixed 4 (x / inUSD * 100)).

Section RoundTrips.

Variable E : Type.
Variable world : World E.
Variable CONFIG : Config.

Local Abbreviation getQuote := (getQuote E world CONFIG).

(** The native input amount:
    [parseUnits((notionalUSD / priceUSD).toFixed(min(decimals, 8)), decimals)],
    the quotient being the double that the division of the two doubles
    gives. *)
Definition amountIn0 (notional price : Q) (dec : nat) : Z :=
  let d := Nat.min dec 8 in
  JS.parseUnits d (JS.toFixed d (JS.div notional price)) dec.

(** The first loop: one forward quote per venue, in order. *)
Fixpoint forwardQuotes (vs : list Venue) (t0 t1 : Token) (amountIn : Z)
    (st : QState) : list (ForwardQuote E) * QState :=
  match vs with
  | [] => ([], st)
  | v :: vs' =>
      let '(o, st1) := getQuote v t0 t1 amountIn st in
      let fq := match o with
                | Return out => mkFQ E v out None
                | Throw t => mkFQ E v None (Some t)
                end in
      let '(fqs, st2) := forwardQuotes vs' t0 t1 amountIn st1 in
      (fq :: fqs, st2)
  end.

(** The figures of one completed round trip. *)
Definition mkRoundTrip (buy sell : Venue) (notional price : Q) (dec : nat)
    (amountIn amountBack : Z) : RoundTrip :=
  let inUSD := (JS.formatUnits amountIn dec * price)%Q in
  let outUSD := (JS.formatUnits amountBack dec * price)%Q in
  let netUSD := (outUSD - inUSD - gasCostUSD CONFIG)%Q in
  mkTrip (dex buy +:+ "→" +:+ dex sell) notional inUSD outUSD netUSD
         (pctFixed (outUSD - inUSD) inUSD) (pctFixed netUSD inUSD).

(** [!buyQ.amountOut]: [null], [undefined] and [0n] are all falsy. *)
Definition usable (out : option Z) : option Z :=
  match out with
  | Some a => if a =? 0 then None else Some a
  | None => None
  end.

(** The body of the inner loop for the indices [i] and [j]. *)
Definition tripBody (fqs : list (ForwardQuote E)) (vs : list Venue)
    (t0 t1 : Token) (notional price : Q) (amountIn : Z) (i j : nat)
    (acc : list RoundTrip * QState) : list RoundTrip * QState :=
  let '(results, st) := acc in
  if (i =? j)%nat then acc else
  match fqs !! i, vs !! j with
  | Some buyQ, Some sellVenue =>
      match usable (fq_amountOut buyQ) with
      | None => acc
      | Some out =>
          match getQuote sellVenue t1 t0 out st with
          | (Return (Some amountBack), st1) =>
              (results ++ [mkRoundTrip (fq_venue buyQ) sellVenue notional price
                                       (decimals t0) amountIn amountBack], st1)
          | (Return None, st1) => (results, st1)
          | (Throw _, st1) => (results, st1)
          end
      end
  | _, _ => acc
  end.

(** The two nested [for] loops over [0 .. forwardQuotes.length - 1]. *)
Definition tripLoops (fqs : list (ForwardQuote E)) (vs : list Venue)
    (t0 t1 : Token) (notional price : Q) (amountIn : Z)
    (st : QState) : list RoundTrip * QState :=
  let n := length fqs in
  foldl (fun acc i =>
           foldl (fun acc' j => tripBody fqs vs t0 t1 notional price amountIn i j acc')
                 acc (seq 0 n))
        ([], st) (seq 0 n).

(** [calculateRoundTrips(pair, notionalUSD)] *)
Definition calculateRoundTrips (pair : Pair) (notional : Q) (st : QState)
  : list RoundTrip * QState :=
  match tokens CONFIG !! token0 pair, tokens CONFIG !! token1 pair with
  | Some t0, Some t1 =>
      match priceUSD t0 with
      | None => ([], st)
      | Some price =>
          if Qle_bool price 0 then ([], st) else
          let a := amountIn0 notional price (decimals t0) in
          let '(fqs, st1) := forwardQuotes (venues pair) t0 t1 a st in
          tripLoops fqs (venues pair) t0 t1 notional price a st1
      end
  | _, _ => ([], st)
  end.

End RoundTrips.

(** *** The round trips a call is to make *)

(** What the first loop stores for a venue and the outcome of its quote. *)
Definition fqOf {E} (v : Venue) (o : Outcome E) : ForwardQuote E :=
  match o with
  | Return out => mkFQ E v out None
  | Throw t => mkFQ E v None (Some t)
  end.

(** A reverse leg: buy at venue [lg_i], sell [lg_out] at venue [lg_j]. *)
Record Leg := mkLeg {
  lg_i    : nat;
  lg_j    : nat;
  lg_buy  : Venue;
  lg_sell : Venue;
  lg_out  : Z
}.

Definition planAt {E} (fqs : list (ForwardQuote E)) (vs : list Venue) (i j : nat) : list Leg :=
  if (i =? j)%nat then [] else
  match fqs !! i, vs !! j with
  | Some buyQ, Some sellVenue =>
      match usable (fq_amountOut buyQ) with
      | Some out => [mkLeg i j (fq_venue buyQ) sellVenue out]
      | None => []
      end
  | _, _ => []
  end.

(** The legs in the order of the two loops. *)
Definition reversePlan {E} (fqs : list (ForwardQuote E)) (vs : list Venue) : list Leg :=
  flat_map (fun i => flat_map (fun j => planAt fqs vs i j) (seq 0 (length fqs)))
           (seq 0 (length fqs)).

(** One leg carried out: the reverse quote, and a result pushed when it
    returns an amount. *)
Definition reverseStep {E} (world : World E) (CONFIG : Config) (t0 t1 : Token)
    (notional price : Q) (amountIn : Z)
    (acc : list RoundTrip * QState) (l : Leg) : list RoundTrip * QState :=
  match getQuote E world CONFIG (lg_sell l) t1 t0 (lg_out l) acc.2 with
  | (Return (Some amountBack), st1) =>
      (acc.1 ++ [mkRoundTrip CONFIG (lg_buy l) (lg_sell l) notional price
                             (decimals t0) amountIn amountBack], st1)
  | (_, st1) => (acc.1, st1)
  end.


Definition reciprocalConfig (price : Q) (dec : nat) (k : nat) (gas : Q) : Config :=
  mkConfig (<["A" := mkDex TyV2 "" "0xRouterA"]> (<["B" := mkDex TyV2 "" "0xRouterB"]> ∅))
           (<["asset0" := mkToken "0xAsset0" dec (Some price)]>
              (<["asset1" := mkToken "0xAsset1" (dec + k) None]> ∅))
           gas.

Definition reciprocalPair : Pair :=
  mkPair "asset0/asset1" "asset0" "asset1" [mkVenue "A" None; mkVenue "B" None].

(** Two constant-product venues: the first quotes zero for the forward
    swap, the second quotes 5, and 5 sells back for 3 at the first. *)
Definition zeroQuoteWorld : World Rejection := fun _ c =>
  match c with
  | CallV2 router amountIn [tin; _] =>
      if String.eqb tin "0xAsset0"
      then (if String.eqb router "0xRouterA" then Returned [amountIn; 0]
            else Returned [amountIn; 5])
      else Returned [amountIn; 3]
  | _ => Rejected NoRoute
  end.

(** *** Persistence tracking and statistics *)

(** One entry of [spikeTracker]. *)
Record SpikeState := mkSpike {
  startBlock : Z;
  count      : nat;
  maxSpread  : Z;
  startTime  : Z
}.

(** One entry of [stats], as built by [initStats]. *)
Record Stats := mkStats {
  st_pair        : string;
  st_notional    : N;
  checks         : Z;
  spikes03       : Z;
  spikes05       : Z;
  spikes1        : Z;
  bestSpread     : Z;
  persistent2    : Z;
  totalNetPct    : Z
}.

(** The two long-lived global objects. *)
Record Globals := mkGlobals {
  spikeTracker : gmap string SpikeState;
  stats        : gmap string Stats
}.

(** The values interpolated into the "PERSISTENT" console line (which
    prints [ev_maxSpread] with three decimals). *)
Record PersistenceEvent := mkEvent {
  ev_pair        : string;
  ev_direction   : string;
  ev_notional    : N;
  ev_duration    : nat;
  ev_durationSec : Z;
  ev_maxSpread   : Z
}.

(** The logging threshold [0.3], in 1e-4 percent units. *)
Definition THRESHOLD : Z := 3000.

(** [`${pairName}_${direction}_${notional}`]; the sizes in [NOTIONALS] are
    whole dollar amounts, printed in decimal. *)
Definition spikeKey (pairName direction : string) (notional : N) : string :=
  pairName +:+ "_" +:+ direction +:+ "_" +:+ pretty notional.

(** [`${pairName}_${notional}`] *)
Definition statsKey (pairName : string) (notional : N) : string :=
  pairName +:+ "_" +:+ pretty notional.

(** [((Date.now() - startTime) / 1000).toFixed(0)] *)
Definition durationSec (now start : Z) : Z :=
  JS.toFixed 0 (inject_Z (now - start) / 1000).

(** [if (stats[sKey]) stats[sKey].persistent2++] *)
Definition bumpPersistent (sKey : string) (st : gmap string Stats) : gmap string Stats :=
  match st !! sKey with
  | Some s =>
      <[sKey := mkStats (st_pair s) (st_notional s) (checks s) (spikes03 s)
                        (spikes05 s) (spikes1 s) (bestSpread s)
                        (persistent2 s + 1) (totalNetPct s)]> st
  | None => st
  end.

(** [trackPersistence(pairName, direction, spreadPct, block, notional)];
    [now] is the value read from [Date.now()] during the call.  The result
    is the new globals and the console events of this call. *)
Definition trackPersistence (now : Z) (pairName direction : string)
    (spread block : Z) (notional : N) (g : Globals)
  : Globals * list PersistenceEvent :=
  let key := spikeKey pairName direction notional in
  if THRESHOLD <=? spread then
    match spikeTracker g !! key with
    | None =>
        (mkGlobals (<[key := mkSpike block 1 spread now]> (spikeTracker g)) (stats g), [])
    | Some s =>
        (mkGlobals (<[key := mkSpike (startBlock s) (S (count s))
                                     (Z.max (maxSpread s) spread) (startTime s)]>
                      (spikeTracker g)) (stats g), [])
    end
  else
    let '(st', evs) :=
      match spikeTracker g !! key with
      | Some s =>
          if (1 <=? count s)%nat then
            let dur := count s in
            let max := maxSpread s in
            let secs := durationSec now (startTime s) in
            if (2 <=? dur)%nat then
              (bumpPersistent (statsKey pairName notional) (stats g),
               [mkEvent pairName direction notional dur secs max])
            else (stats g, [])
          else (stats g, [])
      | None => (stats g, [])
      end in
    (mkGlobals (delete key (spikeTracker g)) st', evs).

(** [initStats(name, notional)] *)
Definition initStats (name : string) (notional : N) (g : Globals) : Globals :=
  mkGlobals (spikeTracker g)
    (<[statsKey name notional :=
         mkStats name notional 0 0 0 0 (-9990000) 0 0]> (stats g)).

(** One call of the tracker, as the poll loop issues it. *)
Record Obs := mkObs {
  o_now       : Z;
  o_pair      : string;
  o_direction : string;
  o_spread    : Z;
  o_block     : Z;
  o_notional  : N
}.

Definition obsKey (o : Obs) : string :=
  spikeKey (o_pair o) (o_direction o) (o_notional o).

Definition evKey (e : PersistenceEvent) : string :=
  spikeKey (ev_pair e) (ev_direction e) (ev_notional e).

Definition observe (o : Obs) (g : Globals) : Globals * list PersistenceEvent :=
  trackPersistence (o_now o) (o_pair o) (o_direction o) (o_spread o)
                   (o_block o) (o_notional o) g.

(** A sequence of calls; the events are collected in emission order. *)
Fixpoint observeAll (os : list Obs) (g : Globals) : Globals * list PersistenceEvent :=
  match os with
  | [] => (g, [])
  | o :: os' =>
      let '(g1, e1) := observe o g in
      let '(g2, e2) := observeAll os' g1 in
      (g2, e1 ++ e2)
  end.

Definition emptyGlobals : Globals := mkGlobals ∅ ∅.

(** What one above-threshold call does to the entry of its key. *)
Definition absorb (e : option SpikeState) (o : Obs) : option SpikeState :=
  match e with
  | None => Some (mkSpike (o_block o) 1 (o_spread o) (o_now o))
  | Some s => Some (mkSpike (startBlock s) (S (count s))
                            (Z.max (maxSpread s) (o_spread o)) (startTime s))
  end.

End SpreadLogger.

(** ** The Arbitrum spread logger (research/arb-spread-logger.js)

    Its [quoteV3], [quoteAlgebra] and [calculateRoundTrips] are those of
    [SpreadLogger] up to the shape of the configuration (the quoter address
    is a field of the venue, the notional a constant of the process); its
    tracker and statistics differ and are given here. *)

Module ArbLogger.

Record SpikeState := mkSpike {
  startBlock : Z;
  count      : nat;
  maxSpread  : Z
}.

Record Stats := mkStats {
  checks      : Z;
  spikes05    : Z;
  spikes1     : Z;
  bestSpread  : Z;
  persistent2 : Z;
  totalNetPct : Z
}.

Record Globals := mkGlobals {
  spikeTracker : gmap string SpikeState;
  stats        : gmap string Stats
}.

Record PersistenceEvent := mkEvent {
  ev_pair      : string;
  ev_direction : string;
  ev_duration  : nat;
  ev_maxSpread : Z
}.

(** The spike threshold [0.5], in 1e-4 percent units. *)
Definition THRESHOLD : Z := 5000.

(** [initStats(name)] *)
Definition initStats (name : string) (st : gmap string Stats) : gmap string Stats :=
  <[name := mkStats 0 0 0 0 0 0]> st.

(** [if (!stats[pairName]) initStats(pairName); stats[pairName].persistent2++] *)
Definition bumpPersistent (pairName : string) (st : gmap string Stats) : gmap string Stats :=
  let st1 := match st !! pairName with Some _ => st | None => initStats pairName st end in
  match st1 !! pairName with
  | Some s => <[pairName := mkStats (checks s) (spikes05 s) (spikes1 s) (bestSpread s)
                                    (persistent2 s + 1) (totalNetPct s)]> st1
  | None => st1
  end.

(** [trackPersistence(pairName, direction, spreadPct, block)] *)
Definition trackPersistence (pairName direction : string) (spread block : Z)
    (g : Globals) : Globals * list PersistenceEvent :=
  let key := pairName +:+ "_" +:+ direction in
  if THRESHOLD <=? spread then
    match spikeTracker g !! key with
    | None => (mkGlobals (<[key := mkSpike block 1 spread]> (spikeTracker g)) (stats g), [])
    | Some s =>
        (mkGlobals (<[key := mkSpike (startBlock s) (S (count s))
                                     (Z.max (maxSpread s) spread)]> (spikeTracker g))
                   (stats g), [])
    end
  else
    let '(st', evs) :=
      match spikeTracker g !! key with
      | Some s =>
          if (1 <=? count s)%nat then
            let dur := count s in
            let max := maxSpread s in
            if (2 <=? dur)%nat then
              (bumpPersistent pairName (stats g), [mkEvent pairName direction dur max])
            else (stats g, [])
          else (stats g, [])
      | None => (stats g, [])
      end in
    (mkGlobals (delete key (spikeTracker g)) st', evs).

(** The "Update stats" block of [poll] for one trip of pair [name];
    [rawSpread] and [net] are [parseFloat] of the trip's two percentages.
    [None]: [stats[name]] is missing and the access throws. *)
Definition updateStats (name : string) (rawSpread net : Z)
    (st : gmap string Stats) : option (gmap string Stats) :=
  match st !! name with
  | None => None
  | Some s =>
      Some (<[name := mkStats
                (checks s + 1)
                (if 5000 <=? rawSpread then spikes05 s + 1 else spikes05 s)
                (if 10000 <=? rawSpread then spikes1 s + 1 else spikes1 s)
                (if rawSpread >? bestSpread s then rawSpread else bestSpread s)
                (persistent2 s)
                (totalNetPct s + net)]> st)
  end.

(** What the loop body reads from one element of [trips]. *)
Record Trip := mkTrip {
  t_direction : string;
  t_spreadPct : Z;
  t_netPct    : Z
}.

(** The body of [for (const trip of trips)] for pair [name], without its
    file and console output: the statistics, then the tracker.  [None]: an
    access threw. *)
Definition pollTrip (name : string) (block : Z) (trip : Trip) (g : Globals)
  : option (Globals * list PersistenceEvent) :=
  match updateStats name (t_spreadPct trip) (t_netPct trip) (stats g) with
  | None => None
  | Some st' =>
      Some (trackPersistence name (t_direction trip) (t_spreadPct trip) block
              (mkGlobals (spikeTracker g) st'))
  end.

(** The loop over the trips of one pair; the [try]/[catch] around it
    abandons the remaining trips when the body throws. *)
Fixpoint pollTrips (name : string) (block : Z) (trips : list Trip) (g : Globals)
  : Globals * list PersistenceEvent :=
  match trips with
  | [] => (g, [])
  | trip :: rest =>
      match pollTrip name block trip g with
      | None => (g, [])
      | Some (g1, e1) =>
          let '(g2, e2) := pollTrips name block rest g1 in
          (g2, e1 ++ e2)
      end
  end.

(** Successive evaluations, each of one pair at one block, over any number
    of cycles. *)
Record Evaluation := mkEval {
  e_pair  : string;
  e_block : Z;
  e_trips : list Trip
}.

Fixpoint pollAll (evals : list Evaluation) (g : Globals) : Globals :=
  match evals with
  | [] => g
  | e :: rest => pollAll rest (pollTrips (e_pair e) (e_block e) (e_trips e) g).1
  end.

End ArbLogger.

(** ** The paper-trade logger (helpers/logger.js) *)

Module PaperLogger.

(** The fields of an opportunity the logger reads.  A field is [None] when
    it is missing or falsy; a spread-like field that is present is a
    decimal string of four fractional digits, given in 1e-4 units. *)
Record Data := mkData {
  d_pair      : option string;
  d_buyDex    : option string;
  d_spread    : option Z;
  d_netProfit : option Z;
  d_price     : option Z
}.

(** An entry of [lastLogged]: [l_spread] is the double that
    [resolveSpread] returned, [l_direction] is [None] for [null]. *)
Record Last := mkLast {
  l_spread    : Q;
  l_direction : option string;
  l_ts        : Z
}.

Record Counters := mkCounters {
  opportunitiesLogged     : Z;
  opportunitiesSuppressed : Z;
  errors                  : Z
}.

Record LState := mkL {
  lastLogged : gmap string Last;
  counters   : Counters;
  written    : list Data       (* entries handed to [fs.appendFile] *)
}.

(** What one call observes of its surroundings. *)
Record Env := mkEnv {
  now_check   : Z;             (* [Date.now()] in [shouldLog] *)
  now_update  : Z;             (* [Date.now()] in [updateLastLogged] *)
  file_size   : option Z;      (* [None]: the hourly file does not exist *)
  stat_throws : bool           (* [fs.statSync] throws *)
}.

Definition DEDUP_SPREAD_DELTA : Q := JS.double (3 # 100).     (* the literal 0.03 *)
Definition DEDUP_COOLDOWN_MS : Z := 10000.
Definition MAX_FILE_SIZE_MB : Z := 10.

(** [data.pair || 'unknown'] *)
Definition pairKey (data : Data) : string :=
  match d_pair data with
  | Some s => if String.eqb s "" then "unknown" else s
  | None => "unknown"
  end.

(** [parseFloat(data.spread || data.netProfit || data.price || 0)] *)
Definition resolveSpread (data : Data) : Q :=
  match d_spread data, d_netProfit data, d_price data with
  | Some x, _, _ => JS.parseFloat 4 x
  | None, Some x, _ => JS.parseFloat 4 x
  | None, None, Some x => JS.parseFloat 4 x
  | None, None, None => 0%Q
  end.

(** [prev.direction !== data.buyDex]: [null] never equals a string or
    [undefined]. *)
Definition directionDiffers (prev : option string) (buyDex : option string) : bool :=
  match prev, buyDex with
  | Some a, Some b => negb (String.eqb a b)
  | _, _ => true
  end.

(** [shouldLog(data)] *)
Definition shouldLog (now : Z) (data : Data) (ll : gmap string Last) : bool :=
  match ll !! pairKey data with
  | None => true
  | Some prev =>
      if directionDiffers (l_direction prev) (d_buyDex data) then true
      else if now - l_ts prev <? DEDUP_COOLDOWN_MS then false
      else if JS.ltb (Qabs (JS.sub (resolveSpread data) (l_spread prev))) DEDUP_SPREAD_DELTA
           then false
      else true
  end.

(** [data.buyDex || null] *)
Definition orNull (s : option string) : option string :=
  match s with
  | Some x => if String.eqb x "" then None else Some x
  | None => None
  end.

(** [updateLastLogged(data)] *)
Definition updateLastLogged (now : Z) (data : Data) (ll : gmap string Last)
  : gmap string Last :=
  <[pairKey data := mkLast (resolveSpread data) (orNull (d_buyDex data)) now]> ll.

(** [logOpportunity(data)]: the returned flag and the new state.  The
    occasional pruning of old files touches the directory only. *)
Definition logOpportunity (env : Env) (data : Data) (s : LState) : bool * LState :=
  let c := counters s in
  if negb (shouldLog (now_check env) data (lastLogged s)) then
    (false, mkL (lastLogged s)
                (mkCounters (opportunitiesLogged c) (opportunitiesSuppressed c + 1) (errors c))
                (written s))
  else
    match file_size env with
    | Some size =>
        if stat_throws env then
          (false, mkL (lastLogged s)
                      (mkCounters (opportunitiesLogged c) (opportunitiesSuppressed c) (errors c + 1))
                      (written s))
        else if size >? MAX_FILE_SIZE_MB * 1024 * 1024 then (false, s)
        else
          (true, mkL (updateLastLogged (now_update env) data (lastLogged s))
                     (mkCounters (opportunitiesLogged c + 1) (opportunitiesSuppressed c) (errors c))
                     (written s ++ [data]))
    | None =>
        (true, mkL (updateLastLogged (now_update env) data (lastLogged s))
                   (mkCounters (opportunitiesLogged c + 1) (opportunitiesSuppressed c) (errors c))
                   (written s ++ [data]))
    end.

(** A sequence of calls, with the flag each returned. *)
Fixpoint logAll (items : list (Env * Data)) (s : LState) : list bool * LState :=
  match items with
  | [] => ([], s)
  | (env, data) :: rest =>
      let '(b, s1) := logOpportunity env data s in
      let '(bs, s2) := logAll rest s1 in
      (b :: bs, s2)
  end.

Definition initial : LState := mkL ∅ (mkCounters 0 0 0) [].

(** The suppression rule in the words of the specification: a prior alert
    of the pair inside the cooldown window and a spread that moved by less
    than the minimum delta since. *)
Definition spec_suppressed (now : Z) (data : Data) (ll : gmap string Last) : bool :=
  match ll !! pairKey data with
  | None => false
  | Some prev =>
      (now - l_ts prev <? DEDUP_COOLDOWN_MS)
      && JS.ltb (Qabs (JS.sub (resolveSpread data) (l_spread prev))) DEDUP_SPREAD_DELTA
  end.

(** An alert of one pair and direction, and a call at a given time with
    no log file yet. *)
Definition alert (spread : Z) : Data :=
  mkData (Some "WETH/WMNT") (Some "Merchant Moe") (Some spread) None None.

Definition at_ (ms : Z) : Env := mkEnv ms ms None false.

End PaperLogger.

(** ** Timer-driven cycles

    The event loop runs one callback at a time; an [async] function runs
    until its next [await] and is resumed by a later event.  An invocation
    is therefore a task with a phase, and the program is a transition
    function on (shared variables, tasks) driven by the events of the loop. *)

Module Poller.

(** *** [pollBlock] of the Mantle monitor *)

Inductive Phase :=
| AwaitingBlock            (* suspended in [await provider.getBlockNumber()] *)
| Checking (block : Z)     (* suspended in [await Promise.allSettled(...)] *)
| Finished.

Record PState := mkP {
  isChecking : bool;
  lastBlock  : Z;
  tasks      : list Phase      (* one entry per invocation that got past the guard *)
}.

Inductive Event :=
| Tick                                   (* the interval timer fires *)
| BlockNumber (t : nat) (r : option Z)   (* task [t]'s request settles; [None]: it rejects *)
| Settled (t : nat).                     (* task [t]'s pair checks have all settled *)

Definition initial : PState := mkP false 0 [].

(** [pollBlock], one callback of the event loop at a time: [Tick] runs an
    invocation from its start to its first [await]; the other events resume
    the invocation they belong to and run it to its next [await] or its
    end. *)
Definition pollBlock (e : Event) (s : PState) : PState :=
  match e with
  | Tick =>
      (* if (isChecking) return *)
      if isChecking s then s
      else mkP (isChecking s) (lastBlock s) (tasks s ++ [AwaitingBlock])
  | BlockNumber t r =>
      match tasks s !! t with
      | Some AwaitingBlock =>
          match r with
          | Some currentBlock =>
              if currentBlock <=? lastBlock s then
                (* return; finally { isChecking = false } *)
                mkP false (lastBlock s) (<[t := Finished]> (tasks s))
              else
                (* lastBlock = currentBlock; isChecking = true; start the checks *)
                mkP true currentBlock (<[t := Checking currentBlock]> (tasks s))
          | None =>
              (* catch; finally { isChecking = false } *)
              mkP false (lastBlock s) (<[t := Finished]> (tasks s))
          end
      | _ => s
      end
  | Settled t =>
      match tasks s !! t with
      | Some (Checking _) =>
          (* finally { isChecking = false } *)
          mkP false (lastBlock s) (<[t := Finished]> (tasks s))
      | _ => s
      end
  end.

Definition run (es : list Event) (s : PState) : PState := foldl (fun s e => pollBlock e s) s es.

Definition isCheckingPhase (p : Phase) : bool :=
  match p with Checking _ => true | _ => false end.

Definition isAwaitingPhase (p : Phase) : bool :=
  match p with AwaitingBlock => true | _ => false end.

(** The number of cycles whose evaluation calls are outstanding. *)
Definition executing (s : PState) : nat := length (filter (fun p => isCheckingPhase p = true) (tasks s)).

Definition awaiting (s : PState) : nat := length (filter (fun p => isAwaitingPhase p = true) (tasks s)).

(** A schedule in which the timer never fires while an invocation is still
    waiting for its block number. *)
Fixpoint paced (es : list Event) (s : PState) : Prop :=
  match es with
  | [] => True
  | e :: rest =>
      (match e with Tick => awaiting s = 0%nat | _ => True end) /\ paced rest (pollBlock e s)
  end.

(** At most one invocation is past the guard, and the flag is set exactly
    while one is checking. *)
Definition guarded (s : PState) : Prop :=
  (awaiting s + executing s <= 1)%nat
  /\ (isChecking s = true <-> executing s = 1%nat).

(** *** [poll] of the spread loggers: the same loop without a guard *)

Inductive LPhase :=
| LAwaitingBlock           (* suspended in [await provider.getBlockNumber()] *)
| LEvaluating (cycle : Z)  (* suspended in a quote or a pacing sleep of the cycle *)
| LFinished.

Record LState := mkLS {
  cycle  : Z;
  ltasks : list LPhase
}.

Inductive LEvent :=
| LTick
| LBlockNumber (t : nat) (r : option Z)
| LDone (t : nat).                       (* the last await of task [t] settles *)

Definition linitial : LState := mkLS 0 [].

(** [poll], one callback of the event loop at a time. *)
Definition poll (e : LEvent) (s : LState) : LState :=
  match e with
  | LTick => mkLS (cycle s) (ltasks s ++ [LAwaitingBlock])
  | LBlockNumber t r =>
      match ltasks s !! t with
      | Some LAwaitingBlock =>
          match r with
          | Some _ => mkLS (cycle s + 1) (<[t := LEvaluating (cycle s + 1)]> (ltasks s))
          | None => mkLS (cycle s) (<[t := LFinished]> (ltasks s))
          end
      | _ => s
      end
  | LDone t =>
      match ltasks s !! t with
      | Some (LEvaluating _) => mkLS (cycle s) (<[t := LFinished]> (ltasks s))
      | _ => s
      end
  end.

Definition lrun (es : list LEvent) (s : LState) : LState := foldl (fun s e => poll e s) s es.

Definition isEvaluating (p : LPhase) : bool :=
  match p with LEvaluating _ => true | _ => false end.

Definition lexecuting (s : LState) : nat := length (filter (fun p => isEvaluating p = true) (ltasks s)).

End Poller.

(** ** Doubles *)

Section DoubleFacts.

Local Open Scope Q_scope.

Lemma roundEven_near x : Qabs (inject_Z (JS.roundEven x) - x) <= 1 # 2.
Proof.
  unfold JS.roundEven.
  pose proof (Qfloor_le x) as Hle. pose proof (Qlt_floor x) as Hlt.
  rewrite inject_Z_plus in Hlt. change (inject_Z 1) with 1 in Hlt.
  apply Qabs_Qle_condition.
  destruct (Qcompare_spec (x - inject_Z (Qfloor x)) (1 # 2)) as [He|Hl|Hg].
  - destruct (Z.even (Qfloor x)).
    + split; lra.
    + rewrite inject_Z_plus. change (inject_Z 1) with 1. split; lra.
  - split; lra.
  - rewrite inject_Z_plus. change (inject_Z 1) with 1. split; lra.
Qed.

Lemma pow2_pos e : 0 < 2 ^ e.
Proof. apply Qpower_0_lt. reflexivity. Qed.

Lemma pow2_add a b : 2 ^ (a + b) == 2 ^ a * 2 ^ b.
Proof. apply Qpower_plus. discriminate. Qed.

Lemma pow2_inject n : (0 <= n)%Z -> 2 ^ n == inject_Z (2 ^ n).
Proof. intros Hn. rewrite Zpower_Qpower by exact Hn. reflexivity. Qed.

(** [ilog2] is the binary exponent: [2^(ilog2 a) <= a < 2^(ilog2 a + 1)]. *)
Lemma ilog2_le a : 0 < a -> 2 ^ JS.ilog2 a <= a.
Proof.
  intros Ha. unfold JS.ilog2.
  set (n := Qnum a). set (d := Zpos (Qden a)).
  destruct (Qle_bool (2 ^ (Z.log2 n - Z.log2 d)) a) eqn:Hb; [by apply Qle_bool_iff|].
  clear Hb.
  assert (Hn : (0 < n)%Z).
  { unfold n. destruct a as [an ad]. unfold Qlt in Ha. simpl in *. lia. }
  assert (Hd : (0 < d)%Z) by (unfold d; lia).
  destruct (Z.log2_spec n Hn) as [Hn1 _].
  destruct (Z.log2_spec d Hd) as [_ Hd2].
  pose proof (Z.log2_nonneg n) as Hln. pose proof (Z.log2_nonneg d) as Hld.
  replace (Z.log2 n - Z.log2 d - 1)%Z with (Z.log2 n + - (Z.succ (Z.log2 d)))%Z by lia.
  rewrite pow2_add, Qpower_opp, !pow2_inject by lia.
  assert (Ha' : a == inject_Z n / inject_Z d) by (destruct a; apply Qmake_Qdiv).
  rewrite Ha'.
  assert (Hd0 : 0 < inject_Z d) by (change 0 with (inject_Z 0); rewrite <- Zlt_Qlt; exact Hd).
  assert (Hp0 : 0 < inject_Z (2 ^ Z.succ (Z.log2 d))).
  { change 0 with (inject_Z 0). rewrite <- Zlt_Qlt. lia. }
  apply Qle_shift_div_l; [exact Hd0|].
  assert (H1 : inject_Z (2 ^ Z.log2 n) <= inject_Z n) by (rewrite <- Zle_Qle; exact Hn1).
  assert (H2 : inject_Z d <= inject_Z (2 ^ Z.succ (Z.log2 d))) by (rewrite <- Zle_Qle; lia).
  assert (H3 : 0 <= inject_Z (2 ^ Z.log2 n)).
  { change 0 with (inject_Z 0). rewrite <- Zle_Qle. lia. }
  set (x := inject_Z (2 ^ Z.log2 n)) in *.
  set (y := inject_Z (2 ^ Z.succ (Z.log2 d))) in *.
  set (z := inject_Z d) in *. set (w := inject_Z n) in *.
  clearbody x y z w.
  apply Qle_trans with x; [|exact H1].
  assert (Hzy : z / y <= 1) by (apply Qle_shift_div_r; [exact Hp0|lra]).
  assert (Heq : x * / y * z == x * (z / y)) by (unfold Qdiv; ring).
  rewrite Heq.
  apply Qle_trans with (x * 1); [|rewrite Qmult_1_r; apply Qle_refl].
  apply Qmult_le_compat_nonneg; split; try lra.
  apply Qle_shift_div_l; [exact Hp0|lra].
Qed.

Lemma ilog2_lt a : 0 < a -> a < 2 ^ (JS.ilog2 a + 1).
Proof.
  intros Ha. unfold JS.ilog2.
  set (n := Qnum a). set (d := Zpos (Qden a)).
  destruct (Qle_bool (2 ^ (Z.log2 n - Z.log2 d)) a) eqn:Hb.
  2:{ replace (Z.log2 n - Z.log2 d - 1 + 1)%Z with (Z.log2 n - Z.log2 d)%Z by lia.
      destruct (Qlt_le_dec a (2 ^ (Z.log2 n - Z.log2 d))) as [?|Hle]; [done|].
      apply Qle_bool_iff in Hle. congruence. }
  clear Hb.
  assert (Hn : (0 < n)%Z).
  { unfold n. destruct a as [an ad]. unfold Qlt in Ha. simpl in *. lia. }
  assert (Hd : (0 < d)%Z) by (unfold d; lia).
  destruct (Z.log2_spec n Hn) as [_ Hn2].
  destruct (Z.log2_spec d Hd) as [Hd1 _].
  pose proof (Z.log2_nonneg n) as Hln. pose proof (Z.log2_nonneg d) as Hld.
  replace (Z.log2 n - Z.log2 d + 1)%Z with (Z.succ (Z.log2 n) + - Z.log2 d)%Z by lia.
  rewrite pow2_add, Qpower_opp, !pow2_inject by lia.
  assert (Ha' : a == inject_Z n / inject_Z d) by (destruct a; apply Qmake_Qdiv).
  rewrite Ha'.
  assert (Hd0 : 0 < inject_Z d) by (change 0 with (inject_Z 0); rewrite <- Zlt_Qlt; exact Hd).
  assert (Hp0 : 0 < inject_Z (2 ^ Z.log2 d)).
  { change 0 with (inject_Z 0). rewrite <- Zlt_Qlt. lia. }
  apply Qlt_shift_div_r; [exact Hd0|].
  assert (H1 : inject_Z n < inject_Z (2 ^ Z.succ (Z.log2 n))) by (rewrite <- Zlt_Qlt; exact Hn2).
  assert (H2 : inject_Z (2 ^ Z.log2 d) <= inject_Z d) by (rewrite <- Zle_Qle; lia).
  assert (H0 : 0 < inject_Z n) by (change 0 with (inject_Z 0); rewrite <- Zlt_Qlt; exact Hn).
  set (x := inject_Z (2 ^ Z.succ (Z.log2 n))) in *.
  set (y := inject_Z (2 ^ Z.log2 d)) in *.
  set (z := inject_Z d) in *. set (w := inject_Z n) in *.
  clearbody x y z w.
  apply Qlt_le_trans with x; [exact H1|].
  assert (Hzy : 1 <= z / y) by (apply Qle_shift_div_l; [exact Hp0|lra]).
  assert (Heq : x * / y * z == x * (z / y)) by (unfold Qdiv; ring).
  rewrite Heq.
  apply Qle_trans with (x * 1); [rewrite Qmult_1_r; apply Qle_refl|].
  apply Qmult_le_compat_nonneg; split; lra.
Qed.

(** Rounding to a double moves a number by at most its [2^-53]rd part, or
    by [2^-1075] among the subnormal numbers. *)
Lemma double_error q :
  Qabs (JS.double q - q) <= Qabs q * 2 ^ (-53) + 2 ^ (-1075).
Proof.
  pose proof (pow2_pos (-53)) as Hu. pose proof (pow2_pos (-1075)) as Hn.
  unfold JS.double.
  destruct (Qeq_bool q 0) eqn:Hz.
  { apply Qeq_bool_iff in Hz.
    assert (H0 : Qabs (0 - q) == 0) by (rewrite Hz; reflexivity).
    rewrite H0. apply Qlt_le_weak.
    apply Qle_lt_trans with (Qabs q * 2 ^ (-53) + 0); [|apply Qplus_lt_r; exact Hn].
    rewrite Qplus_0_r. apply Qmult_le_0_compat; [apply Qabs_nonneg|by apply Qlt_le_weak]. }
  assert (Hnz : ~ q == 0) by (intros H; apply Qeq_bool_iff in H; congruence).
  assert (Ha : 0 < Qabs q).
  { destruct (Qlt_le_dec 0 (Qabs q)) as [?|Hle]; [done|].
    exfalso. apply Hnz. apply Qabs_Qle_condition in Hle. lra. }
  set (a := Qabs q) in *.
  set (e := Z.max (JS.ilog2 a) (-1022)).
  set (ulp := 2 ^ (e - 52)).
  set (m := JS.roundEven (a / ulp)).
  assert (Hulp : 0 < ulp) by apply pow2_pos.
  assert (Hr : Qabs (inject_Z m * ulp - a) <= (1 # 2) * ulp).
  { assert (Heq : inject_Z m * ulp - a == (inject_Z m - a / ulp) * ulp) by (field; lra).
    rewrite Heq, Qabs_Qmult, (Qabs_pos ulp) by lra.
    apply Qmult_le_compat_r; [apply roundEven_near|lra]. }
  assert (Hhalf : (1 # 2) * ulp <= a * 2 ^ (-53) + 2 ^ (-1075)).
  { unfold ulp.
    assert (H53 : forall k, (1 # 2) * 2 ^ (k - 52) == 2 ^ k * 2 ^ (-53)).
    { intros k. replace (k - 52)%Z with (k + (-53 + 1))%Z by lia.
      rewrite !pow2_add. change (2 ^ 1) with 2. ring. }
    rewrite H53.
    destruct (Z.max_spec (JS.ilog2 a) (-1022)) as [[Hlt He]|[Hge He]]; fold e in He.
    - rewrite He, <- pow2_add. change (-1022 + -53)%Z with (-1075)%Z.
      assert (0 <= a * 2 ^ (-53)) by (apply Qmult_le_0_compat; lra).
      set (x := a * 2 ^ (-53)) in *. set (y := 2 ^ (-1075)) in *. clearbody x y. lra.
    - rewrite He. pose proof (ilog2_le a Ha) as Hl.
      assert (2 ^ JS.ilog2 a * 2 ^ (-53) <= a * 2 ^ (-53))
        by (apply Qmult_le_compat_r; [exact Hl|lra]).
      set (x := a * 2 ^ (-53)) in *. set (y := 2 ^ (-1075)) in *.
      set (z := 2 ^ JS.ilog2 a * 2 ^ (-53)) in *. clearbody x y z. lra. }
  assert (Hred : Qred (inject_Z m * ulp) == inject_Z m * ulp) by apply Qred_correct.
  set (bound := a * 2 ^ (-53) + 2 ^ (-1075)) in *. clearbody bound.
  destruct (Qle_bool 0 q) eqn:Hs.
  - apply Qle_bool_iff in Hs.
    assert (Haq : a == q) by (unfold a; apply Qabs_pos; exact Hs).
    assert (Heq : Qred (inject_Z m * ulp) - q == inject_Z m * ulp - a)
      by (rewrite Hred, Haq; reflexivity).
    rewrite Heq. lra.
  - assert (Hneg : q < 0).
    { destruct (Qlt_le_dec q 0) as [?|Hle]; [done|]. apply Qle_bool_iff in Hle. congruence. }
    assert (Haq : a == - q) by (unfold a; apply Qabs_neg; lra).
    assert (Heq : - Qred (inject_Z m * ulp) - q == - (inject_Z m * ulp - a))
      by (rewrite Hred, Haq; ring).
    rewrite Heq, Qabs_opp. lra.
Qed.

Lemma double_nonneg q : 0 <= q -> 0 <= JS.double q.
Proof.
  intros Hq. unfold JS.double.
  destruct (Qeq_bool q 0); [lra|].
  destruct (Qle_bool 0 q) eqn:Hs; [|apply Qle_bool_iff in Hq; congruence].
  rewrite Qred_correct.
  set (a := Qabs q). set (ulp := 2 ^ (Z.max (JS.ilog2 a) (-1022) - 52)).
  assert (Hulp : 0 < ulp) by apply pow2_pos.
  assert (Ha : 0 <= a / ulp).
  { apply Qle_shift_div_l; [exact Hulp|]. rewrite Qmult_0_l. apply Qabs_nonneg. }
  apply Qmult_le_0_compat; [|lra].
  change 0 with (inject_Z 0). rewrite <- Zle_Qle.
  unfold JS.roundEven.
  assert (Hf : (0 <= Qfloor (a / ulp))%Z).
  { change 0%Z with (Qfloor 0). by apply Qfloor_resp_le. }
  destruct (_ ?= _); [destruct (Z.even _)| |]; lia.
Qed.

Lemma ltb_lt x y : JS.ltb x y = true <-> x < y.
Proof.
  unfold JS.ltb. split.
  - intros H. destruct (Qlt_le_dec x y) as [?|Hle]; [done|].
    apply Qle_bool_iff in Hle. rewrite Hle in H. discriminate.
  - intros H. destruct (Qle_bool y x) eqn:Hb; [|done].
    apply Qle_bool_iff in Hb. lra.
Qed.

End DoubleFacts.

(** [JS.double] against the standard library's specification of binary64
    arithmetic: [1 / 2000000], [1e9 / 3], [0.35 - 0.32] and the literal
    [0.03]. *)
Example double_div_small :
  JS.div 1 2000000
  = JS.ofSpecFloat (SpecFloat.SFdiv 53 1024 (JS.specFloatOfZ 1) (JS.specFloatOfZ 2000000)).
Proof. vm_compute. reflexivity. Qed.

Example double_div_third :
  JS.div 1000000000 3
  = JS.ofSpecFloat (SpecFloat.SFdiv 53 1024 (JS.specFloatOfZ 1000000000) (JS.specFloatOfZ 3)).
Proof. vm_compute. reflexivity. Qed.

Example double_sub_spreads :
  JS.sub (JS.parseFloat 4 3500) (JS.parseFloat 4 3200)
  = JS.ofSpecFloat
      (SpecFloat.SFsub 53 1024
         (SpecFloat.SFdiv 53 1024 (JS.specFloatOfZ 3500) (JS.specFloatOfZ 10000))
         (SpecFloat.SFdiv 53 1024 (JS.specFloatOfZ 3200) (JS.specFloatOfZ 10000))).
Proof. vm_compute. reflexivity. Qed.

Example double_literal_003 :
  JS.double (3 # 100)
  = JS.ofSpecFloat (SpecFloat.SFdiv 53 1024 (JS.specFloatOfZ 3) (JS.specFloatOfZ 100)).
Proof. vm_compute. reflexivity. Qed.
(** * Properties *)

(** ** Persistence tracker *)

Import SpreadLogger.

Lemma filter_none {A} (P : A -> Prop) `{forall x, Decision (P x)} (l : list A) :
  (forall x, x ∈ l -> ~ P x) -> filter P l = [].
Proof.
  induction l as [|x l IH]; intros Hn; [done|].
  rewrite filter_cons_False; [|apply Hn; by left].
  apply IH. intros y Hy. apply Hn. by right.
Qed.

Section TrackerFacts.

Implicit Types (g : Globals) (o : Obs) (k : string).

Lemma observe_above o g :
  THRESHOLD <= o_spread o ->
  observe o g =
    (mkGlobals (match absorb (spikeTracker g !! obsKey o) o with
                | Some s => <[obsKey o := s]> (spikeTracker g)
                | None => spikeTracker g
                end) (stats g), []).
Proof.
  intros Hge. unfold observe, trackPersistence, obsKey.
  destruct (Z.leb_spec THRESHOLD (o_spread o)); [|lia].
  destruct (spikeTracker g !! _); reflexivity.
Qed.

Lemma observe_frame o g k :
  obsKey o <> k ->
  spikeTracker (observe o g).1 !! k = spikeTracker g !! k.
Proof.
  intros Hne. unfold observe, trackPersistence. fold (obsKey o).
  destruct (THRESHOLD <=? o_spread o).
  - destruct (spikeTracker g !! obsKey o); simpl; by rewrite lookup_insert_ne.
  - destruct (spikeTracker g !! obsKey o) as [s|];
      [destruct (1 <=? count s)%nat; [destruct (2 <=? count s)%nat|]|];
      simpl; by rewrite lookup_delete_ne.
Qed.

Lemma observe_events_key o g e :
  e ∈ (observe o g).2 -> evKey e = obsKey o.
Proof.
  unfold observe, trackPersistence. fold (obsKey o).
  destruct (THRESHOLD <=? o_spread o).
  - destruct (spikeTracker g !! obsKey o); simpl; by intros ?%elem_of_nil.
  - destruct (spikeTracker g !! obsKey o) as [s|];
      [destruct (1 <=? count s)%nat; [destruct (2 <=? count s)%nat|]|]; simpl;
      try by intros ?%elem_of_nil.
    intros ->%list_elem_of_singleton. reflexivity.
Qed.

Lemma observe_below o g :
  o_spread o < THRESHOLD ->
  spikeTracker (observe o g).1 = delete (obsKey o) (spikeTracker g).
Proof.
  intros Hlt. unfold observe, trackPersistence. fold (obsKey o).
  destruct (Z.leb_spec THRESHOLD (o_spread o)); [lia|].
  destruct (spikeTracker g !! obsKey o) as [s|];
    [destruct (1 <=? count s)%nat; [destruct (2 <=? count s)%nat|]|]; reflexivity.
Qed.

(** The entry of [k] after a trace whose calls on [k] are all above the
    threshold: the calls on [k] absorbed in order, and nothing logged for [k]. *)
Lemma observeAll_run k tr : forall g,
  (forall o, o ∈ tr -> obsKey o = k -> THRESHOLD <= o_spread o) ->
  spikeTracker (observeAll tr g).1 !! k
    = foldl absorb (spikeTracker g !! k) (filter (fun o => obsKey o = k) tr)
  /\ filter (fun e => evKey e = k) (observeAll tr g).2 = [].
Proof.
  induction tr as [|o tr IH]; intros g Hab; [done|].
  simpl. destruct (observe o g) as [g1 e1] eqn:E1.
  destruct (observeAll tr g1) as [g2 e2] eqn:E2.
  assert (Htl : forall o', o' ∈ tr -> obsKey o' = k -> THRESHOLD <= o_spread o').
  { intros o' Hin. apply Hab. by right. }
  destruct (IH g1 Htl) as [IH1 IH2]. rewrite E2 in IH1, IH2. simpl in IH1, IH2.
  simpl. rewrite filter_app, IH2, app_nil_r, filter_cons.
  destruct (decide (obsKey o = k)) as [Hk|Hk].
  - assert (Hge : THRESHOLD <= o_spread o) by (apply Hab; [by left|done]).
    rewrite (observe_above o g Hge) in E1. injection E1 as <- <-.
    split; [|done]. rewrite IH1. simpl. f_equal. rewrite <- Hk.
    destruct (spikeTracker g !! obsKey o); simpl; by rewrite lookup_insert_eq.
  - split.
    + rewrite IH1. f_equal.
      change g1 with ((g1, e1).1). rewrite <- E1. by apply observe_frame.
    + apply filter_none. intros e He Hek.
      apply Hk. rewrite <- Hek. symmetry. apply (observe_events_key o g).
      by rewrite E1.
Qed.

(** Absorbing a run into an existing entry adds its length to the counter
    and keeps the running maximum. *)
Lemma absorb_run_some run : forall s,
  exists s', foldl absorb (Some s) run = Some s'
    /\ count s' = (count s + length run)%nat
    /\ startTime s' = startTime s
    /\ maxSpread s <= maxSpread s'
    /\ (forall o, o ∈ run -> o_spread o <= maxSpread s')
    /\ (maxSpread s' = maxSpread s \/ maxSpread s' ∈ map o_spread run).
Proof.
  induction run as [|o run IH]; intros s.
  - exists s. repeat split; simpl; try lia. by intros ? ?%elem_of_nil.
  - simpl. destruct (IH (mkSpike (startBlock s) (S (count s))
                                 (Z.max (maxSpread s) (o_spread o)) (startTime s)))
      as (s' & Hf & Hc & Ht & Hm & Hall & Hin).
    simpl in *. exists s'. repeat split; try done; try lia.
    + intros o' [->|Hin']%elem_of_cons; [lia | by apply Hall].
    + destruct Hin as [Heq|Hin]; [|right; by right].
      rewrite Heq. destruct (Z.max_spec (maxSpread s) (o_spread o)) as [[_ ->]|[_ ->]];
        [right; by left | by left].
Qed.

Lemma absorb_run_none o run :
  exists s', foldl absorb None (o :: run) = Some s'
    /\ count s' = length (o :: run)
    /\ startTime s' = o_now o
    /\ (forall o', o' ∈ o :: run -> o_spread o' <= maxSpread s')
    /\ maxSpread s' ∈ map o_spread (o :: run).
Proof.
  simpl. destruct (absorb_run_some run (mkSpike (o_block o) 1 (o_spread o) (o_now o)))
    as (s' & Hf & Hc & Ht & Hm & Hall & Hin). simpl in *.
  exists s'. repeat split; try done.
  - intros o' [->|Hin']%elem_of_cons; [lia | by apply Hall].
  - destruct Hin as [->|Hin]; [by left | by right].
Qed.

End TrackerFacts.

(** C1.  Fix a key that is idle.  Let a trace (calls on any keys,
    interleaved) contain only above-threshold calls on this key, and let it
    be followed by the first below-threshold call on the key.  Nothing is
    logged for the key during the trace; the closing call logs exactly one
    PersistenceEvent when the run has length two or more, with [duration]
    the run length and [maxSpread] the largest spread of the run, and logs
    nothing when the run is shorter; in both cases the key has no entry
    afterwards. *)
Theorem C1_persistence_run (k : string) (tr : list Obs) (below : Obs) (g : Globals) :
  spikeTracker g !! k = None ->
  obsKey below = k ->
  o_spread below < THRESHOLD ->
  (forall o, o ∈ tr -> obsKey o = k -> THRESHOLD <= o_spread o) ->
  let run := filter (fun o => obsKey o = k) tr in
  let g1 := (observeAll tr g).1 in
  let before := (observeAll tr g).2 in
  let g2 := (observe below g1).1 in
  let closing := (observe below g1).2 in
  filter (fun e => evKey e = k) before = []
  /\ ((2 <= length run)%nat ->
        exists e, closing = [e]
          /\ ev_pair e = o_pair below /\ ev_direction e = o_direction below
          /\ ev_notional e = o_notional below
          /\ ev_duration e = length run
          /\ ev_maxSpread e ∈ map o_spread run
          /\ (forall o, o ∈ run -> o_spread o <= ev_maxSpread e))
  /\ ((length run < 2)%nat -> closing = [])
  /\ spikeTracker g2 !! k = None.
Proof.
  intros Hidle Hk Hlt Hab run g1 before g2 closing.
  destruct (observeAll_run k tr g Hab) as [Hentry Hquiet].
  fold g1 in Hentry. fold before in Hquiet. fold run in Hentry.
  rewrite Hidle in Hentry.
  split; [exact Hquiet|].
  assert (Hdel : spikeTracker g2 !! k = None).
  { unfold g2. rewrite (observe_below below g1 Hlt), Hk. apply lookup_delete_eq. }
  unfold closing, observe, trackPersistence. fold (obsKey below). rewrite Hk.
  destruct (Z.leb_spec THRESHOLD (o_spread below)) as [?|_]; [lia|].
  destruct run as [|o run'] eqn:Erun.
  - simpl in Hentry. rewrite Hentry. simpl.
    split; [intros; lia|]. split; [done|exact Hdel].
  - destruct (absorb_run_none o run') as (s & Hs & Hc & _ & Hall & Hin).
    rewrite Hs in Hentry. rewrite Hentry.
    assert (H1 : (1 <=? count s)%nat = true) by (apply Nat.leb_le; rewrite Hc; simpl; lia).
    rewrite H1.
    destruct (Nat.leb_spec 2 (count s)) as [H2|H2]; simpl.
    + split; [|split; [intros; simpl in *; lia|exact Hdel]].
      intros _. eexists. split; [reflexivity|]. simpl.
      repeat split; try done.
    + split; [intros; simpl in *; lia|]. split; [done|exact Hdel].
Qed.

(** The theorem at the spread sequence 0.4 %, 0.5 %, 0.2 %. *)
Lemma C1_persistence_run_witness :
  exists e,
    (observe (mkObs 2000 "WETH/USDC" "uni→camelot" 2000 103 1000)
       (observeAll [mkObs 0 "WETH/USDC" "uni→camelot" 4000 101 1000;
                    mkObs 1000 "WETH/USDC" "uni→camelot" 5000 102 1000]
                   emptyGlobals).1).2 = [e]
    /\ ev_duration e = 2%nat.
Proof.
  destruct (C1_persistence_run "WETH/USDC_uni→camelot_1000"
              [mkObs 0 "WETH/USDC" "uni→camelot" 4000 101 1000;
               mkObs 1000 "WETH/USDC" "uni→camelot" 5000 102 1000]
              (mkObs 2000 "WETH/USDC" "uni→camelot" 2000 103 1000)
              emptyGlobals)
    as (_ & Hev & _).
  - reflexivity.
  - reflexivity.
  - reflexivity.
  - intros o Ho _.
    apply elem_of_cons in Ho as [->|Ho]; [vm_compute; discriminate|].
    apply list_elem_of_singleton in Ho as ->. vm_compute; discriminate.
  - destruct Hev as (e & He & _ & _ & _ & Hd & _); [vm_compute; lia|].
    exists e. split; [exact He | exact Hd].
Defined.

(** The two sequences of the specification, run on an empty tracker. *)
Example persistence_040_050_020 :
  observeAll [mkObs 0 "WETH/USDC" "uni→camelot" 4000 101 1000;
              mkObs 1000 "WETH/USDC" "uni→camelot" 5000 102 1000;
              mkObs 2000 "WETH/USDC" "uni→camelot" 2000 103 1000] emptyGlobals
  = (emptyGlobals, [mkEvent "WETH/USDC" "uni→camelot" 1000 2 2 5000]).
Proof. vm_compute. reflexivity. Qed.

Example persistence_040_010 :
  observeAll [mkObs 0 "WETH/USDC" "uni→camelot" 4000 101 1000;
              mkObs 1000 "WETH/USDC" "uni→camelot" 1000 102 1000] emptyGlobals
  = (emptyGlobals, []).
Proof. vm_compute. reflexivity. Qed.

(** The persistence counter of the (pair, notional) statistics moves with
    the event: a closing call that logs bumps [persistent2] by one. *)
Lemma persistence_counter now pairName direction spread block notional g s st :
  spread < THRESHOLD ->
  spikeTracker g !! spikeKey pairName direction notional = Some s ->
  (2 <= count s)%nat ->
  stats g !! statsKey pairName notional = Some st ->
  persistent2 <$>
    stats (trackPersistence now pairName direction spread block notional g).1
      !! statsKey pairName notional
  = Some (persistent2 st + 1).
Proof.
  intros Hlt Hs H2 Hst. unfold trackPersistence.
  destruct (Z.leb_spec THRESHOLD spread); [lia|]. rewrite Hs.
  destruct (Nat.leb_spec 1 (count s)); [|lia].
  destruct (Nat.leb_spec 2 (count s)); [|lia].
  simpl. unfold bumpPersistent. rewrite Hst, lookup_insert_eq. reflexivity.
Qed.


(** ** Quoting layer *)

Section QuotingFacts.

Context {E : Type} (world : World E).

Lemma quoteAlgebra_cached d tin tout a st v :
  algebraAbiVersion st = Some v ->
  quoteAlgebra E world d tin tout a st
  = (firstOutput (world (length (calls st)) (algebraCall v (d, tin, tout, a))),
     mkQ (Some v) (calls st ++ [algebraCall v (d, tin, tout, a)])).
Proof.
  intros Hv. unfold quoteAlgebra, quoteAlgebraV2, ethCall, algebraCall. rewrite Hv.
  destruct v; simpl; destruct (world _ _); simpl; rewrite ?Hv; reflexivity.
Qed.

Lemma quoteAlgebraAll_cached reqs : forall st v,
  algebraAbiVersion st = Some v ->
  algebraAbiVersion (quoteAlgebraAll world reqs st).2 = Some v
  /\ calls (quoteAlgebraAll world reqs st).2 = calls st ++ map (algebraCall v) reqs.
Proof.
  induction reqs as [|[[[d tin] tout] a] reqs IH]; intros st v Hv; simpl.
  - by rewrite app_nil_r.
  - rewrite (quoteAlgebra_cached d tin tout a st v Hv).
    destruct (quoteAlgebraAll world reqs _) as [os st2] eqn:Hrest. simpl.
    specialize (IH (mkQ (Some v) (calls st ++ [algebraCall v (d, tin, tout, a)])) v eq_refl).
    rewrite Hrest in IH. simpl in IH. destruct IH as [IH1 IH2].
    split; [exact IH1|]. rewrite IH2, <- app_assoc. reflexivity.
Qed.

End QuotingFacts.

(** C2 (as amended).  With no schema cached, [quoteAlgebra] tries the flat
    form; if that call is rejected, for whatever reason, it tries the struct
    form; the form that returned is cached in the process-wide
    [algebraAbiVersion], and when both are rejected nothing is cached and
    the second rejection is thrown.  With a schema cached, every later call
    makes exactly one attempt, with the cached form, and throws its
    rejection; the cache never changes again. *)
Theorem C2_schema_detection {E : Type} (world : World E) :
  (forall d tin tout a st,
     let r := (d, tin, tout, a) in
     let n := length (calls st) in
     let res := quoteAlgebra E world d tin tout a st in
     match algebraAbiVersion st with
     | Some v =>
         res = (firstOutput (world n (algebraCall v r)),
                mkQ (Some v) (calls st ++ [algebraCall v r]))
     | None =>
         match world n (algebraCall v1 r) with
         | Returned vals =>
             res = (Return (vals !! 0%nat), mkQ (Some v1) (calls st ++ [algebraCall v1 r]))
         | Rejected _ =>
             match world (S n) (algebraCall v2 r) with
             | Returned vals =>
                 res = (Return (vals !! 0%nat),
                        mkQ (Some v2) (calls st ++ [algebraCall v1 r; algebraCall v2 r]))
             | Rejected e2 =>
                 res = (Throw (CallFailed e2),
                        mkQ None (calls st ++ [algebraCall v1 r; algebraCall v2 r]))
             end
         end
     end)
  /\ (forall reqs st v,
        algebraAbiVersion st = Some v ->
        algebraAbiVersion (quoteAlgebraAll world reqs st).2 = Some v
        /\ calls (quoteAlgebraAll world reqs st).2 = calls st ++ map (algebraCall v) reqs).
Proof.
  split; [|apply quoteAlgebraAll_cached].
  intros d tin tout a st r n res.
  destruct (algebraAbiVersion st) as [v|] eqn:Hv.
  - apply quoteAlgebra_cached. exact Hv.
  - unfold res, quoteAlgebra, quoteAlgebraV2, ethCall, r, algebraCall, n.
    rewrite Hv. simpl.
    destruct (world (length (calls st)) _) as [vals|e1]; simpl; [reflexivity|].
    rewrite length_app, Nat.add_1_r. simpl.
    destruct (world (S (length (calls st))) _) as [vals|e2]; simpl;
      rewrite <- app_assoc; reflexivity.
Qed.

(** The theorem at a venue detected as flat and quoted three times. *)
Lemma C2_schema_detection_witness :
  algebraAbiVersion
    (quoteAlgebraAll flatOnly [(camelot, tokA, tokB, 5); (camelot, tokB, tokA, 7)]
       (quoteAlgebra Rejection flatOnly camelot tokA tokB 1 (mkQ None [])).2).2 = Some v1
  /\ calls
       (quoteAlgebraAll flatOnly [(camelot, tokA, tokB, 5); (camelot, tokB, tokA, 7)]
          (quoteAlgebra Rejection flatOnly camelot tokA tokB 1 (mkQ None [])).2).2
     = [CallAlgebra v1 "0xQuoter" "0xA" "0xB" 1;
        CallAlgebra v1 "0xQuoter" "0xA" "0xB" 5;
        CallAlgebra v1 "0xQuoter" "0xB" "0xA" 7].
Proof.
  apply (proj2 (C2_schema_detection flatOnly)
           [(camelot, tokA, tokB, 5); (camelot, tokB, tokA, 7)]
           (quoteAlgebra Rejection flatOnly camelot tokA tokB 1 (mkQ None [])).2 v1).
  reflexivity.
Defined.

(** C2, as stated, fails: the flat form was rejected for lack of liquidity,
    not for a wrong schema, and the struct form is attempted all the same;
    the caller is handed the second rejection. *)
Lemma C2_counterexample :
  dryPool 0%nat (CallAlgebra v1 "0xQuoter" "0xA" "0xB" 1) = Rejected NoLiquidity
  /\ quoteAlgebra Rejection dryPool camelot tokA tokB 1 (mkQ None [])
     = (Throw (CallFailed WrongSchema),
        mkQ None [CallAlgebra v1 "0xQuoter" "0xA" "0xB" 1;
                  CallAlgebra v2 "0xQuoter" "0xA" "0xB" 1]).
Proof. split; reflexivity. Qed.

(** The cache is one slot for the whole process: a second Algebra venue,
    deployed with the struct form, is only ever asked in the form detected
    on the first. *)
Example one_cache_for_all_venues :
  let st1 := (quoteAlgebra Rejection twoSchemas camelot tokA tokB 1 (mkQ None [])).2 in
  quoteAlgebra Rejection twoSchemas (mkDex TyAlgebra "0xOther" "") tokA tokB 1 st1
  = (Throw (CallFailed WrongSchema),
     mkQ (Some v1) [CallAlgebra v1 "0xQuoter" "0xA" "0xB" 1;
                    CallAlgebra v1 "0xOther" "0xA" "0xB" 1]).
Proof. reflexivity. Qed.

(** C7.  [quoteLB] sends exactly one call, whose amount is the input capped
    at the largest uint128: the input itself when it fits, the maximum when
    it does not; the quote is whatever the venue answers to that call. *)
Theorem C7_lb_clamp {E : Type} (world : World E) (d : DexConfig)
    (tokenIn tokenOut : Token) (amountIn : Z) (st : QState) :
  let safe := Z.min amountIn MAX_UINT128 in
  let c := CallLB (dx_quoter d) [address tokenIn; address tokenOut] safe in
  quoteLB E world d tokenIn tokenOut amountIn st
    = (lastOutput (world (length (calls st)) c),
       mkQ (algebraAbiVersion st) (calls st ++ [c]))
  /\ safe <= MAX_UINT128
  /\ MAX_UINT128 = 2 ^ 128 - 1
  /\ (amountIn <= MAX_UINT128 -> safe = amountIn)
  /\ (MAX_UINT128 < amountIn -> safe = MAX_UINT128).
Proof.
  intros safe c.
  assert (Hsafe : (if amountIn >? MAX_UINT128 then MAX_UINT128 else amountIn) = safe).
  { unfold safe. destruct (Z.gtb_spec amountIn MAX_UINT128); lia. }
  split; [|repeat split; try (unfold safe; lia); reflexivity].
  unfold quoteLB, ethCall. rewrite Hsafe. fold c.
  destruct (world (length (calls st)) c); reflexivity.
Qed.

(** The theorem at an input one above the maximum and at one within range. *)
Lemma C7_lb_clamp_witness :
  (quoteLB Rejection (fun _ c => match c with CallLB _ _ a => Returned [a; a] | _ => Rejected NoRoute end)
     (mkDex TyLB "0xLB" "") tokA tokB (2 ^ 128) (mkQ None [])).1 = Return (Some (2 ^ 128 - 1))
  /\ Z.min 5 MAX_UINT128 = 5.
Proof.
  pose proof (C7_lb_clamp (E := Rejection)
    (fun _ c => match c with CallLB _ _ a => Returned [a; a] | _ => Rejected NoRoute end)
    (mkDex TyLB "0xLB" "") tokA tokB (2 ^ 128) (mkQ None [])) as H.
  pose proof (C7_lb_clamp (E := Rejection) (fun _ _ => Rejected NoRoute)
    (mkDex TyLB "0xLB" "") tokA tokB 5 (mkQ None [])) as H5.
  simpl in H, H5. destruct H as (Hq & _). destruct H5 as (_ & _ & _ & Hin & _).
  split.
  - rewrite Hq. reflexivity.
  - apply Hin. vm_compute. discriminate.
Defined.

(** ** Round-trip evaluation *)

Section Numerics.

Local Open Scope Q_scope.

Lemma pow10_pos d : (0 < JS.pow10 d)%Z.
Proof. unfold JS.pow10. apply Z.pow_pos_nonneg; lia. Qed.

Lemma pow10_add a b : (JS.pow10 (a + b) = JS.pow10 a * JS.pow10 b)%Z.
Proof. unfold JS.pow10. rewrite Nat2Z.inj_add, Z.pow_add_r; lia. Qed.

Lemma pow10_Qpos d : 0 < inject_Z (JS.pow10 d).
Proof. change 0 with (inject_Z 0). rewrite <- Zlt_Qlt. apply pow10_pos. Qed.

(** [toFixed] of a non-negative number is within half a unit of it. *)
Lemma toFixed_nearest d x :
  0 <= x ->
  x * inject_Z (JS.pow10 d) - (1 # 2) < inject_Z (JS.toFixed d x)
  /\ inject_Z (JS.toFixed d x) <= x * inject_Z (JS.pow10 d) + (1 # 2).
Proof.
  intros Hx. unfold JS.toFixed.
  destruct (Qle_bool 0 x) eqn:Hb; [|apply Qle_bool_iff in Hx; congruence].
  generalize (x * inject_Z (JS.pow10 d)). intros z.
  pose proof (Qfloor_le (z + (1 # 2))) as Hle.
  pose proof (Qlt_floor (z + (1 # 2))) as Hlt.
  rewrite inject_Z_plus in Hlt. change (inject_Z 1) with 1 in Hlt.
  generalize dependent (inject_Z (Qfloor (z + (1 # 2)))). intros f Hle Hlt.
  split; lra.
Qed.


End Numerics.

(** C4 (as amended).  For a positive notional and a positive reference
    price whose double quotient is below [1e21], the native input amount is the
    double quotient rounded to the nearest multiple of
    [10^(decimals - min(decimals, 8))] native units, a tie going up: it lies
    within half such a step of the double quotient scaled to native units,
    on either side.  The double quotient is the exact quotient up to its
    [2^-53]rd part (and [2^-1075]), so the amount lies within half a step
    plus that much, scaled, of the exact quotient. *)
Theorem C4_amount_nearest (notional price : Q) (dec : nat) :
  (0 < notional)%Q -> (0 < price)%Q ->
  (JS.div notional price < inject_Z (10 ^ 21))%Q ->
  let d := Nat.min dec 8 in
  let a := amountIn0 notional price dec in
  let exact := (notional / price)%Q in
  let quotient := JS.div notional price in
  let scale := inject_Z (JS.pow10 dec) in
  let half := ((1 # 2) * inject_Z (JS.pow10 (dec - d)))%Q in
  let err := (exact * 2 ^ (-53) + 2 ^ (-1075))%Q in
  (JS.pow10 (dec - d) | a)%Z
  /\ (quotient * scale - half < inject_Z a)%Q
  /\ (inject_Z a <= quotient * scale + half)%Q
  /\ (Qabs (quotient - exact) <= err)%Q
  /\ (Qabs (inject_Z a - exact * scale) <= half + err * scale)%Q.
Proof.
  intros Hn Hp _ d a exact quotient scale half err.
  assert (Hq : (0 <= exact)%Q).
  { apply Qlt_le_weak, Qlt_shift_div_l; [exact Hp|]. lra. }
  assert (Hq' : (0 <= quotient)%Q) by (by apply double_nonneg).
  destruct (toFixed_nearest d quotient Hq') as [Hlo Hhi].
  assert (Herr : (Qabs (quotient - exact) <= err)%Q).
  { unfold err. rewrite <- (Qabs_pos exact Hq) at 2. apply double_error. }
  assert (Ha : a = (JS.toFixed d quotient * JS.pow10 (dec - d))%Z) by reflexivity.
  set (n := JS.toFixed d quotient) in *.
  assert (Hsplit : (scale == inject_Z (JS.pow10 d) * inject_Z (JS.pow10 (dec - d)))%Q).
  { unfold scale. rewrite <- inject_Z_mult, <- pow10_add.
    replace (d + (dec - d))%nat with dec by lia. reflexivity. }
  pose proof (pow10_Qpos (dec - d)) as Hs.
  pose proof (pow10_Qpos dec) as Hsc. fold scale in Hsc.
  assert (Hbounds : (quotient * scale - half < inject_Z a
                     /\ inject_Z a <= quotient * scale + half)%Q).
  { unfold half. rewrite Ha, inject_Z_mult, Hsplit.
    set (s := inject_Z (JS.pow10 (dec - d))) in *.
    set (p := inject_Z (JS.pow10 d)) in *.
    assert (H1 : ((quotient * p - (1 # 2)) * s < inject_Z n * s)%Q).
    { apply Qmult_lt_compat_r; assumption. }
    assert (H2 : (inject_Z n * s <= (quotient * p + (1 # 2)) * s)%Q).
    { apply Qmult_le_compat_r; [assumption | apply Qlt_le_weak; assumption]. }
    split.
    - eapply Qle_lt_trans; [|exact H1]. apply Qle_lteq. right. ring.
    - eapply Qle_trans; [exact H2|]. apply Qle_lteq. right. ring. }
  split; [exists n; exact Ha|].
  split; [exact (proj1 Hbounds)|]. split; [exact (proj2 Hbounds)|].
  split; [exact Herr|].
  destruct Hbounds as [Hb1 Hb2].
  apply Qabs_Qle_condition in Herr as [He1 He2].
  assert (H1 : (- err * scale <= (quotient - exact) * scale)%Q).
  { apply Qmult_le_compat_r; [exact He1|by apply Qlt_le_weak]. }
  assert (H2 : ((quotient - exact) * scale <= err * scale)%Q).
  { apply Qmult_le_compat_r; [exact He2|by apply Qlt_le_weak]. }
  assert (Heq : ((quotient - exact) * scale == quotient * scale - exact * scale)%Q) by ring.
  assert (Hneg : (- err * scale == - (err * scale))%Q) by ring.
  rewrite Heq in H1, H2. rewrite Hneg in H1.
  apply Qabs_Qle_condition.
  set (x := (quotient * scale)%Q) in *. set (y := (exact * scale)%Q) in *.
  set (z := (err * scale)%Q) in *. clearbody x y z half. split; lra.
Qed.

(** The theorem at $1000 of an 18-decimal asset priced at $2000. *)
Lemma C4_amount_nearest_witness :
  (Qabs (inject_Z (amountIn0 (1000 # 1) (2000 # 1) 18)
         - (1000 # 1) / (2000 # 1) * inject_Z (JS.pow10 18))
   <= (1 # 2) * inject_Z (JS.pow10 (18 - Nat.min 18 8))
      + ((1000 # 1) / (2000 # 1) * 2 ^ (-53) + 2 ^ (-1075)) * inject_Z (JS.pow10 18))%Q.
Proof.
  apply (C4_amount_nearest (1000 # 1) (2000 # 1) 18); vm_compute; reflexivity.
Defined.

(** C4, as stated, fails: $200 of an 18-decimal asset priced at $3 becomes
    66.66666667 units, more than the exact 66.666... *)
Lemma C4_counterexample :
  amountIn0 (200 # 1) (3 # 1) 18 = 66666666670000000000
  /\ ((200 # 1) / (3 # 1) * inject_Z (JS.pow10 18)
      < inject_Z (amountIn0 (200 # 1) (3 # 1) 18))%Q.
Proof. split; vm_compute; reflexivity. Qed.

(** The double quotient, not the exact one, is what is rounded: $1 of a
    6-decimal asset priced at $2000000 is half a native unit exactly, the
    double quotient lies below it and the amount is 0; and a billion
    dollars at $3 keeps the digits of the double. *)
Example amount_of_double_quotient :
  amountIn0 (1 # 1) (2000000 # 1) 6 = 0
  /\ amountIn0 (1000000000 # 1) (3 # 1) 18 = 333333333333333310000000000.
Proof. split; vm_compute; reflexivity. Qed.

Lemma foldl_flat_map {A B C} (f : A -> C -> A) (g : B -> list C) (l : list B) : forall a,
  foldl f a (flat_map g l) = foldl (fun a x => foldl f a (g x)) a l.
Proof.
  induction l as [|x l IH]; intros a; simpl; [done|].
  by rewrite foldl_app, IH.
Qed.

Lemma foldl_ext {A B} (f g : A -> B -> A) (l : list B) : forall a,
  (forall a x, f a x = g a x) -> foldl f a l = foldl g a l.
Proof.
  induction l as [|x l IH]; intros a Hfg; simpl; [done|].
  rewrite Hfg. by apply IH.
Qed.

Section RoundTripFacts.

Context {E : Type} (world : World E) (CONFIG : Config).

Local Abbreviation getQuote := (getQuote E world CONFIG).
Local Abbreviation forwardQuotes := (forwardQuotes E world CONFIG).
Local Abbreviation reverseStep := (reverseStep world CONFIG).

(** The first loop keeps one entry per venue, in order. *)
Lemma forwardQuotes_venues vs t0 t1 a : forall st,
  map fq_venue (forwardQuotes vs t0 t1 a st).1 = vs.
Proof.
  induction vs as [|v vs IH]; intros st; simpl; [done|].
  destruct (getQuote v t0 t1 a st) as [o st1].
  specialize (IH st1). destruct (forwardQuotes vs t0 t1 a st1) as [fqs st2].
  simpl in *. f_equal; [by destruct o | exact IH].
Qed.

Lemma forwardQuotes_length vs t0 t1 a st :
  length (forwardQuotes vs t0 t1 a st).1 = length vs.
Proof. by rewrite <- (forwardQuotes_venues vs t0 t1 a st) at 2; rewrite length_map. Qed.

(** The entry of venue [i] is made from the outcome of its quote in the
    state the venues before it left behind. *)
Lemma forwardQuotes_lookup vs t0 t1 a : forall st i v,
  vs !! i = Some v ->
  (forwardQuotes vs t0 t1 a st).1 !! i
  = Some (fqOf v (getQuote v t0 t1 a (forwardQuotes (take i vs) t0 t1 a st).2).1).
Proof.
  induction vs as [|w vs IH]; intros st i v Hi; [done|].
  simpl. destruct (getQuote w t0 t1 a st) as [o st1] eqn:Hq.
  destruct i as [|i].
  - injection Hi as ->. simpl. rewrite Hq.
    destruct (forwardQuotes vs t0 t1 a st1). simpl. by destruct o.
  - simpl in Hi. specialize (IH st1 i v Hi).
    simpl. rewrite Hq.
    destruct (forwardQuotes vs t0 t1 a st1) as [fqs st2].
    destruct (forwardQuotes (take i vs) t0 t1 a st1) as [fqs' st2'].
    simpl in *. exact IH.
Qed.

Lemma tripBody_planAt fqs vs t0 t1 notional price a i j acc :
  tripBody E world CONFIG fqs vs t0 t1 notional price a i j acc
  = foldl (reverseStep t0 t1 notional price a) acc (planAt fqs vs i j).
Proof.
  unfold tripBody, planAt. destruct acc as [results st].
  destruct (i =? j)%nat; [done|].
  destruct (fqs !! i) as [buyQ|]; [|done].
  destruct (vs !! j) as [sell|]; [|done].
  destruct (usable (fq_amountOut buyQ)) as [out|]; [|done].
  simpl. unfold SpreadLogger.reverseStep. simpl.
  destruct (getQuote sell t1 t0 out st) as [[[back|]|t] st1]; reflexivity.
Qed.

(** The two loops carry out the planned legs, one after the other. *)
Lemma tripLoops_plan fqs vs t0 t1 notional price a st :
  tripLoops E world CONFIG fqs vs t0 t1 notional price a st
  = foldl (reverseStep t0 t1 notional price a) ([], st) (reversePlan fqs vs).
Proof.
  unfold tripLoops, reversePlan.
  rewrite foldl_flat_map. apply foldl_ext. intros acc i.
  rewrite foldl_flat_map. apply foldl_ext. intros acc' j.
  apply tripBody_planAt.
Qed.

Lemma calculateRoundTrips_unfold pair notional st t0 t1 price :
  tokens CONFIG !! token0 pair = Some t0 ->
  tokens CONFIG !! token1 pair = Some t1 ->
  priceUSD t0 = Some price ->
  (0 < price)%Q ->
  let a := amountIn0 notional price (decimals t0) in
  let fwd := forwardQuotes (venues pair) t0 t1 a st in
  calculateRoundTrips E world CONFIG pair notional st
  = foldl (reverseStep t0 t1 notional price a) ([], fwd.2)
          (reversePlan fwd.1 (venues pair)).
Proof.
  intros H0 H1 Hp Hpos a fwd. unfold calculateRoundTrips.
  rewrite H0, H1, Hp.
  destruct (Qle_bool price 0) eqn:Hle.
  { apply Qle_bool_iff in Hle. exfalso. apply (Qlt_not_le _ _ Hpos Hle). }
  fold a. fold fwd. destruct fwd as [fqs st1]. apply tripLoops_plan.
Qed.

(** The planned legs are the ordered pairs of distinct venues whose first
    member quoted a non-zero amount. *)
Lemma elem_of_planAt (fqs : list (ForwardQuote E)) vs i j l :
  l ∈ planAt fqs vs i j <->
  i <> j /\ lg_i l = i /\ lg_j l = j
  /\ exists fq, fqs !! i = Some fq /\ vs !! j = Some (lg_sell l)
       /\ lg_buy l = fq_venue fq /\ fq_amountOut fq = Some (lg_out l) /\ lg_out l <> 0.
Proof.
  unfold planAt. destruct (Nat.eqb_spec i j) as [->|Hne].
  { split; [by intros ?%elem_of_nil | by intros [? _]]. }
  destruct (fqs !! i) as [fq|] eqn:Hfq.
  2:{ split; [by intros ?%elem_of_nil | by intros (_ & _ & _ & ? & ? & _)]. }
  destruct (vs !! j) as [sell|] eqn:Hs.
  2:{ split; [by intros ?%elem_of_nil | by intros (_ & _ & _ & ? & _ & ? & _)]. }
  unfold usable. destruct (fq_amountOut fq) as [out|] eqn:Hout.
  2:{ split; [by intros ?%elem_of_nil|].
      intros (_ & _ & _ & fq' & [= <-] & _ & _ & Ho & _). congruence. }
  destruct (Z.eqb_spec out 0) as [->|Hnz].
  { split; [by intros ?%elem_of_nil|].
    intros (_ & _ & _ & fq' & [= <-] & _ & _ & Ho & Hz). congruence. }
  rewrite list_elem_of_singleton. split.
  - intros ->. simpl. repeat split; try done. exists fq. by repeat split.
  - intros (_ & Hi & Hj & fq' & [= <-] & [= Hsell] & Hb & Ho & _).
    destruct l as [li lj lb ls lo]. simpl in *. subst. congruence.
Qed.

Lemma elem_of_reversePlan (fqs : list (ForwardQuote E)) vs l :
  length fqs = length vs ->
  l ∈ reversePlan fqs vs <->
  lg_i l <> lg_j l
  /\ exists fq, fqs !! lg_i l = Some fq /\ vs !! lg_j l = Some (lg_sell l)
       /\ lg_buy l = fq_venue fq /\ fq_amountOut fq = Some (lg_out l) /\ lg_out l <> 0.
Proof.
  intros Hlen. unfold reversePlan. rewrite list_elem_of_In, in_flat_map. split.
  - intros (i & _ & Hin). apply in_flat_map in Hin as (j & _ & Hin).
    apply list_elem_of_In, elem_of_planAt in Hin as (Hne & <- & <- & Hfq).
    split; [exact Hne | exact Hfq].
  - intros (Hne & fq & Hfq & Hs & Hrest).
    exists (lg_i l). split.
    { apply in_seq. apply lookup_lt_Some in Hfq. lia. }
    apply in_flat_map. exists (lg_j l). split.
    { apply in_seq. apply lookup_lt_Some in Hs. lia. }
    apply list_elem_of_In, elem_of_planAt. repeat split; try done. by exists fq.
Qed.


End RoundTripFacts.

Lemma NoDup_flat_map {A B} (f : A -> list B) (l : list A) :
  NoDup l ->
  (forall x, x ∈ l -> NoDup (f x)) ->
  (forall x1 x2 y, x1 ∈ l -> x2 ∈ l -> y ∈ f x1 -> y ∈ f x2 -> x1 = x2) ->
  NoDup (flat_map f l).
Proof.
  induction 1 as [|x l Hx Hl IH]; intros Hf Hinj; simpl; [constructor|].
  apply NoDup_app. split; [apply Hf; by left|]. split.
  - intros y Hy Hy'. apply list_elem_of_In, in_flat_map in Hy' as (x' & Hx' & Hy').
    apply list_elem_of_In in Hx', Hy'.
    assert (x = x') as <- by (apply (Hinj x x' y); [by left | by right | done | done]).
    contradiction.
  - apply IH.
    + intros z Hz. apply Hf. by right.
    + intros x1 x2 y H1 H2. apply Hinj; by right.
Qed.

Lemma NoDup_reversePlan {E} (fqs : list (ForwardQuote E)) vs : NoDup (reversePlan fqs vs).
Proof.
  unfold reversePlan. apply NoDup_flat_map; [apply NoDup_seq| |].
  - intros i _. apply NoDup_flat_map; [apply NoDup_seq| |].
    + intros j _. unfold planAt. destruct (i =? j)%nat; [constructor|].
      destruct (fqs !! i); [|constructor]. destruct (vs !! j); [|constructor].
      destruct (usable _); [apply NoDup_singleton | constructor].
    + intros j1 j2 l _ _ (_ & _ & <- & _)%elem_of_planAt (_ & _ & <- & _)%elem_of_planAt.
      reflexivity.
  - intros i1 i2 l _ _ H1 H2.
    apply list_elem_of_In, in_flat_map in H1 as (j1 & _ & H1).
    apply list_elem_of_In, in_flat_map in H2 as (j2 & _ & H2).
    apply list_elem_of_In, elem_of_planAt in H1 as (_ & <- & _).
    apply list_elem_of_In, elem_of_planAt in H2 as (_ & <- & _).
    reflexivity.
Qed.






(** C6 (as amended).  The forward results hold one entry per configured
    venue, in order, made from the outcome of that venue's quote: the
    amount, or an absent amount with the error when the quote threw.  The
    reverse quotes then requested are exactly one per ordered pair of
    distinct venues (i, j) whose venue i returned a non-zero forward amount
    (a failed, an undefined or a zero amount gets none), each selling venue
    i's amount at venue j; every such leg is carried out whatever the
    earlier ones did, and a leg whose reverse quote throws adds no result. *)
Theorem C6_forward_and_reverse {E} (world : World E) CONFIG pair notional st t0 t1 price :
  tokens CONFIG !! token0 pair = Some t0 ->
  tokens CONFIG !! token1 pair = Some t1 ->
  priceUSD t0 = Some price ->
  (0 < price)%Q ->
  let a := amountIn0 notional price (decimals t0) in
  let fwd := forwardQuotes E world CONFIG (venues pair) t0 t1 a st in
  let plan := reversePlan fwd.1 (venues pair) in
  map fq_venue fwd.1 = venues pair
  /\ (forall i v, venues pair !! i = Some v ->
        fwd.1 !! i
        = Some (fqOf v (getQuote E world CONFIG v t0 t1 a
                          (forwardQuotes E world CONFIG (take i (venues pair)) t0 t1 a st).2).1))
  /\ calculateRoundTrips E world CONFIG pair notional st
     = foldl (reverseStep world CONFIG t0 t1 notional price a) ([], fwd.2) plan
  /\ NoDup plan
  /\ (forall l, l ∈ plan <->
        lg_i l <> lg_j l
        /\ exists fq, fwd.1 !! lg_i l = Some fq
             /\ venues pair !! lg_j l = Some (lg_sell l)
             /\ lg_buy l = fq_venue fq
             /\ fq_amountOut fq = Some (lg_out l) /\ lg_out l <> 0).
Proof.
  intros H0 H1 Hp Hpos a fwd plan.
  split; [apply forwardQuotes_venues|].
  split; [intros i v Hv; by apply forwardQuotes_lookup|].
  split; [by apply calculateRoundTrips_unfold|].
  split; [apply NoDup_reversePlan|].
  intros l. apply elem_of_reversePlan, forwardQuotes_length.
Qed.

(** The theorem in that market: the first loop keeps both venues. *)
Lemma C6_forward_and_reverse_witness :
  map fq_venue
    (forwardQuotes Rejection zeroQuoteWorld (reciprocalConfig (2000 # 1) 18 0 (1 # 10))
       (venues reciprocalPair) (mkToken "0xAsset0" 18 (Some (2000 # 1)%Q))
       (mkToken "0xAsset1" 18 None)
       (amountIn0 (1000 # 1) (2000 # 1) 18) (mkQ None [])).1
  = venues reciprocalPair.
Proof.
  apply (C6_forward_and_reverse zeroQuoteWorld (reciprocalConfig (2000 # 1) 18 0 (1 # 10))
           reciprocalPair (1000 # 1)%Q (mkQ None [])
           (mkToken "0xAsset0" 18 (Some (2000 # 1)%Q)) (mkToken "0xAsset1" 18 None)
           (2000 # 1)%Q); reflexivity.
Defined.

(** C6, as stated, fails: the forward quote of venue A succeeded (amount 0,
    no error), yet no reverse quote of A's output is requested at venue B;
    the only reverse call sells B's output at A. *)
Lemma C6_counterexample :
  let cfg := reciprocalConfig (2000 # 1) 18 0 (1 # 10) in
  let t0 := mkToken "0xAsset0" 18 (Some (2000 # 1)%Q) in
  let t1 := mkToken "0xAsset1" 18 None in
  (forwardQuotes Rejection zeroQuoteWorld cfg (venues reciprocalPair) t0 t1
     500000000000000000 (mkQ None [])).1
  = [mkFQ Rejection (mkVenue "A" None) (Some 0) None;
     mkFQ Rejection (mkVenue "B" None) (Some 5) None]
  /\ calls (calculateRoundTrips Rejection zeroQuoteWorld cfg reciprocalPair (1000 # 1)
              (mkQ None [])).2
     = [CallV2 "0xRouterA" 500000000000000000 ["0xAsset0"; "0xAsset1"];
        CallV2 "0xRouterB" 500000000000000000 ["0xAsset0"; "0xAsset1"];
        CallV2 "0xRouterA" 5 ["0xAsset1"; "0xAsset0"]].
Proof. split; vm_compute; reflexivity. Qed.

(** ** Alert deduplication *)

Section Dedup.

Import PaperLogger.

Lemma directionDiffers_false prev buyDex :
  directionDiffers prev buyDex = false <-> exists b, prev = Some b /\ buyDex = Some b.
Proof.
  unfold directionDiffers. split.
  - destruct prev as [a|], buyDex as [b|]; try discriminate.
    intros H. apply negb_false_iff, String.eqb_eq in H as ->. by exists b.
  - intros (b & -> & ->). by rewrite String.eqb_refl.
Qed.

(** What a call leaves in [lastLogged]: the alert itself when it is
    emitted, the map as it was when it is not. *)
Lemma logOpportunity_lastLogged env data s :
  let res := logOpportunity env data s in
  (res.1 = true ->
     shouldLog (now_check env) data (lastLogged s) = true
     /\ lastLogged res.2 !! pairKey data
        = Some (mkLast (resolveSpread data) (orNull (d_buyDex data)) (now_update env)))
  /\ (res.1 = false -> lastLogged res.2 = lastLogged s).
Proof.
  unfold logOpportunity.
  destruct (shouldLog (now_check env) data (lastLogged s)) eqn:Hs; simpl.
  2:{ split; [discriminate|done]. }
  destruct (file_size env) as [size|]; simpl.
  - destruct (stat_throws env); simpl; [split; [discriminate|done]|].
    destruct (size >? MAX_FILE_SIZE_MB * 1024 * 1024); simpl;
      [split; [discriminate|done]|].
    split; [|discriminate]. intros _. split; [done|].
    unfold updateLastLogged. apply lookup_insert_eq.
  - split; [|discriminate]. intros _. split; [done|].
    unfold updateLastLogged. apply lookup_insert_eq.
Qed.

(** Rounding to a double, with decimal bounds on the error. *)
Lemma double_close (q K : Q) :
  (Qabs q <= K)%Q ->
  (- (K * (1 # 1000000000000000) + (1 # 1000000000000000000000000000000))
   <= JS.double q - q
   <= K * (1 # 1000000000000000) + (1 # 1000000000000000000000000000000))%Q.
Proof.
  intros HK. apply Qabs_Qle_condition.
  eapply Qle_trans; [apply double_error|].
  assert (Hu : (2 ^ (-53) <= 1 # 1000000000000000)%Q) by (vm_compute; discriminate).
  assert (Hn : (2 ^ (-1075) <= 1 # 1000000000000000000000000000000)%Q)
    by (vm_compute; discriminate).
  assert (Hm : (Qabs q * 2 ^ (-53) <= K * (1 # 1000000000000000))%Q).
  { apply Qmult_le_compat_nonneg; (split; [|done]).
    - apply Qabs_nonneg.
    - apply Qlt_le_weak, pow2_pos. }
  set (x := (Qabs q * 2 ^ (-53))%Q) in *. set (y := (2 ^ (-1075))%Q) in *.
  clearbody x y. lra.
Qed.

(** The comparison of line 67 on two spreads of four decimals, up to
    100000 % in size: spreads at most 0.0299 apart are within the delta,
    spreads 0.0301 or more apart are not. *)
Lemma spread_delta_bounds (x y : Z) :
  (Z.abs x <= 10 ^ 9)%Z -> (Z.abs y <= 10 ^ 9)%Z ->
  let diff := Qabs (JS.sub (JS.parseFloat 4 x) (JS.parseFloat 4 y)) in
  ((Z.abs (x - y) <= 299)%Z -> (diff < DEDUP_SPREAD_DELTA)%Q)
  /\ ((301 <= Z.abs (x - y))%Z -> (DEDUP_SPREAD_DELTA <= diff)%Q).
Proof.
  intros Hx Hy diff.
  assert (Hlo : (2999 # 100000 < DEDUP_SPREAD_DELTA)%Q) by (vm_compute; reflexivity).
  assert (Hhi : (DEDUP_SPREAD_DELTA <= 3001 # 100000)%Q) by (vm_compute; discriminate).
  unfold diff, JS.sub, JS.parseFloat.
  change (inject_Z (JS.pow10 4)) with (inject_Z 10000).
  set (A := (inject_Z x / inject_Z 10000)%Q). set (B := (inject_Z y / inject_Z 10000)%Q).
  assert (HA : (A == inject_Z x * (1 # 10000))%Q) by reflexivity.
  assert (HB : (B == inject_Z y * (1 # 10000))%Q) by reflexivity.
  assert (HX : (- inject_Z (10 ^ 9) <= inject_Z x <= inject_Z (10 ^ 9))%Q).
  { rewrite <- inject_Z_opp, <- !Zle_Qle. lia. }
  assert (HY : (- inject_Z (10 ^ 9) <= inject_Z y <= inject_Z (10 ^ 9))%Q).
  { rewrite <- inject_Z_opp, <- !Zle_Qle. lia. }
  change (inject_Z (10 ^ 9)) with (1000000000 # 1)%Q in HX, HY.
  assert (HAK : (Qabs A <= 100000)%Q) by (apply Qabs_Qle_condition; rewrite HA; split; lra).
  assert (HBK : (Qabs B <= 100000)%Q) by (apply Qabs_Qle_condition; rewrite HB; split; lra).
  pose proof (double_close A 100000 HAK) as HfA.
  pose proof (double_close B 100000 HBK) as HfB.
  apply Qabs_Qle_condition in HAK, HBK.
  set (fa := JS.double A) in *. set (fb := JS.double B) in *.
  assert (HDK : (Qabs (fa - fb) <= 200001)%Q) by (apply Qabs_Qle_condition; split; lra).
  pose proof (double_close (fa - fb) 200001 HDK) as HfD.
  set (fd := JS.double (fa - fb)) in *.
  assert (Hxy : (A - B == inject_Z (x - y) * (1 # 10000))%Q).
  { rewrite HA, HB. unfold Z.sub. rewrite inject_Z_plus, inject_Z_opp. ring. }
  clearbody fa fb fd. split.
  - intros Hd.
    assert (Hd' : (- inject_Z 299 <= inject_Z (x - y) <= inject_Z 299)%Q).
    { rewrite <- inject_Z_opp, <- !Zle_Qle. lia. }
    change (inject_Z 299) with (299 # 1)%Q in Hd'.
    set (dz := inject_Z (x - y)) in *. clearbody dz.
    apply Qabs_Qlt_condition. split; lra.
  - intros Hd.
    destruct (Z.le_ge_cases 0 (x - y)) as [Hpos|Hneg].
    + assert (Hd' : (inject_Z 301 <= inject_Z (x - y))%Q) by (rewrite <- Zle_Qle; lia).
      change (inject_Z 301) with (301 # 1)%Q in Hd'.
      set (dz := inject_Z (x - y)) in *. clearbody dz.
      apply Qle_trans with fd; [lra|apply Qle_Qabs].
    + assert (Hd' : (inject_Z (x - y) <= - inject_Z 301)%Q).
      { rewrite <- inject_Z_opp, <- Zle_Qle. lia. }
      change (inject_Z 301) with (301 # 1)%Q in Hd'.
      set (dz := inject_Z (x - y)) in *. clearbody dz.
      apply Qle_trans with (- fd)%Q; [lra|].
      rewrite <- Qabs_opp. apply Qle_Qabs.
Qed.

End Dedup.

(** C3 (as amended).  The dedup check suppresses an alert exactly when the
    last emitted alert of the pair bought at the same venue and either was
    emitted less than the cooldown ago or had a spread whose difference from
    the new one, subtracted and compared as doubles, is below 0.03.  For
    spreads of four decimals that is the case whenever they are at most
    0.0299 apart and never when they are 0.0301 or more apart; spreads
    exactly 0.03 apart fall on either side with the rounding (0.32 and 0.35
    are within the delta, 0.00 and 0.03 are not).  [lastLogged] holds, for
    each pair, the last alert that was emitted.  So of two same-direction
    alerts inside the cooldown window only the first is emitted whatever
    their spreads, and an alert after the cooldown is emitted only if its
    spread moved by the delta or its direction changed. *)
Theorem C3_dedup_rule :
  (forall now data ll,
     PaperLogger.shouldLog now data ll = false <->
     exists prev b,
       ll !! PaperLogger.pairKey data = Some prev
       /\ PaperLogger.l_direction prev = Some b /\ PaperLogger.d_buyDex data = Some b
       /\ (now - PaperLogger.l_ts prev < PaperLogger.DEDUP_COOLDOWN_MS
           \/ (Qabs (JS.double (PaperLogger.resolveSpread data - PaperLogger.l_spread prev))
               < JS.double (3 # 100))%Q))
  /\ (forall x y : Z,
        Z.abs x <= 10 ^ 9 -> Z.abs y <= 10 ^ 9 ->
        let diff := Qabs (JS.double (JS.parseFloat 4 x - JS.parseFloat 4 y)) in
        (Z.abs (x - y) <= 299 -> (diff < JS.double (3 # 100))%Q)
        /\ (301 <= Z.abs (x - y) -> (JS.double (3 # 100) <= diff)%Q))
  /\ (Qabs (JS.double (JS.parseFloat 4 3500 - JS.parseFloat 4 3200)) < JS.double (3 # 100))%Q
  /\ (JS.double (3 # 100) <= Qabs (JS.double (JS.parseFloat 4 300 - JS.parseFloat 4 0)))%Q
  /\ (forall env data s,
        let res := PaperLogger.logOpportunity env data s in
        (res.1 = true ->
           PaperLogger.shouldLog (PaperLogger.now_check env) data (PaperLogger.lastLogged s) = true
           /\ PaperLogger.lastLogged res.2 !! PaperLogger.pairKey data
              = Some (PaperLogger.mkLast (PaperLogger.resolveSpread data)
                        (PaperLogger.orNull (PaperLogger.d_buyDex data))
                        (PaperLogger.now_update env)))
        /\ (res.1 = false -> PaperLogger.lastLogged res.2 = PaperLogger.lastLogged s)).
Proof.
  split; [|split; [exact spread_delta_bounds|]].
  2:{ split; [vm_compute; reflexivity|]. split; [vm_compute; discriminate|].
      apply logOpportunity_lastLogged. }
  intros now data ll. unfold PaperLogger.shouldLog.
  destruct (ll !! PaperLogger.pairKey data) as [prev|] eqn:Hprev.
  2:{ split; [discriminate|]. intros (? & ? & ? & _). discriminate. }
  destruct (PaperLogger.directionDiffers _ _) eqn:Hdir.
  { split; [discriminate|]. intros (p & b & [= <-] & Hd & Hb & _).
    assert (PaperLogger.directionDiffers (PaperLogger.l_direction prev)
              (PaperLogger.d_buyDex data) = false) as Hf
      by (apply directionDiffers_false; by exists b).
    congruence. }
  apply directionDiffers_false in Hdir as (b & Hd & Hb).
  destruct (Z.ltb_spec (now - PaperLogger.l_ts prev) PaperLogger.DEDUP_COOLDOWN_MS) as [Hc|Hc].
  { split; [|done]. intros _. exists prev, b. repeat split; try done. by left. }
  destruct (JS.ltb _ _) eqn:Hs.
  { split; [|done]. intros _. exists prev, b. repeat split; try done.
    right. by apply ltb_lt in Hs. }
  split; [discriminate|].
  intros (p & b' & [= <-] & _ & _ & [H|H]); [lia|].
  apply ltb_lt in H. unfold JS.sub, PaperLogger.DEDUP_SPREAD_DELTA in Hs. congruence.
Qed.

(** The theorem at the second of two alerts 5 s apart, 0.50 % then 0.51 %. *)
Lemma C3_dedup_rule_witness :
  PaperLogger.shouldLog 5000 (PaperLogger.alert 5100)
    (PaperLogger.lastLogged (PaperLogger.logOpportunity (PaperLogger.at_ 0) (PaperLogger.alert 5000) PaperLogger.initial).2)
  = false.
Proof.
  apply (proj1 C3_dedup_rule).
  exists (PaperLogger.mkLast (JS.parseFloat 4 5000) (Some "Merchant Moe") 0), "Merchant Moe".
  repeat split; try (vm_compute; reflexivity). left. reflexivity.
Defined.

(** C3, as stated, fails: a third alert 20 s after the first, past the
    10 s cooldown and with the spread of the first, is suppressed, where the
    rule of the specification lets it through. *)
Lemma C3_counterexample :
  (PaperLogger.logAll [(PaperLogger.at_ 0, PaperLogger.alert 5000); (PaperLogger.at_ 5000, PaperLogger.alert 5100); (PaperLogger.at_ 20000, PaperLogger.alert 5000)]
     PaperLogger.initial).1 = [true; false; false]
  /\ PaperLogger.spec_suppressed 20000 (PaperLogger.alert 5000)
       (PaperLogger.lastLogged
          (PaperLogger.logAll [(PaperLogger.at_ 0, PaperLogger.alert 5000); (PaperLogger.at_ 5000, PaperLogger.alert 5100)]
             PaperLogger.initial).2) = false.
Proof. split; vm_compute; reflexivity. Qed.

(** Past the cooldown, spreads exactly 0.03 apart: 0.32 then 0.35 is
    suppressed, the difference of the two doubles being below the double
    0.03, while 0.00 then 0.03 is emitted. *)
Example dedup_at_the_delta :
  (PaperLogger.logAll [(PaperLogger.at_ 0, PaperLogger.alert 3200);
                       (PaperLogger.at_ 20000, PaperLogger.alert 3500)]
     PaperLogger.initial).1 = [true; false]
  /\ (PaperLogger.logAll [(PaperLogger.at_ 0, PaperLogger.alert 0);
                          (PaperLogger.at_ 20000, PaperLogger.alert 300)]
        PaperLogger.initial).1 = [true; true].
Proof. split; vm_compute; reflexivity. Qed.

(** ** Cycles *)

Section PollerFacts.

Import Poller.

(** Replacing one element changes a count by what went out and came in. *)
Lemma count_insert {A} (f : A -> bool) (l : list A) : forall t x y,
  l !! t = Some y ->
  (length (filter (fun p => f p = true) (<[t := x]> l)) + (if f y then 1 else 0)
   = length (filter (fun p => f p = true) l) + (if f x then 1 else 0))%nat.
Proof.
  induction l as [|z l IH]; intros t x y Ht; [done|].
  destruct t as [|t]; simpl in *.
  - injection Ht as ->. rewrite !filter_cons.
    destruct (decide (f x = true)) as [Hx|Hx], (decide (f y = true)) as [Hy|Hy];
      simpl; destruct (f x), (f y); simpl; try congruence; lia.
  - specialize (IH t x y Ht). rewrite !filter_cons.
    destruct (decide (f z = true)); simpl; lia.
Qed.

Lemma count_snoc {A} (f : A -> bool) (l : list A) x :
  length (filter (fun p => f p = true) (l ++ [x]))
  = (length (filter (fun p => f p = true) l) + (if f x then 1 else 0))%nat.
Proof.
  rewrite filter_app, length_app, filter_cons, filter_nil.
  destruct (decide (f x = true)) as [H|H]; destruct (f x); simpl; congruence.
Qed.

Lemma count_pos {A} (f : A -> bool) (l : list A) t y :
  l !! t = Some y -> f y = true ->
  (1 <= length (filter (fun p => f p = true) l))%nat.
Proof.
  intros Ht Hy.
  assert (Hin : y ∈ filter (fun p => f p = true) l).
  { apply list_elem_of_filter. split; [done|]. by eapply list_elem_of_lookup_2. }
  destruct (filter _ l); [by apply elem_of_nil in Hin | simpl; lia].
Qed.

Lemma guarded_initial : guarded initial.
Proof. split; [vm_compute; lia|]. split; discriminate. Qed.

Lemma guarded_step e s :
  guarded s ->
  match e with Tick => awaiting s = 0%nat | _ => True end ->
  guarded (pollBlock e s).
Proof.
  intros [Hone Hflag] Hpace. unfold guarded, awaiting, executing in *.
  destruct e as [|t r|t]; simpl.
  - destruct (isChecking s) eqn:Hc; simpl; rewrite ?Hc; [split; assumption|].
    rewrite !count_snoc. simpl.
    assert (length (filter (fun p => isCheckingPhase p = true) (tasks s)) <> 1%nat)
      by (intros H1; apply Hflag in H1; congruence).
    split; [lia|]. split; [discriminate|lia].
  - destruct (tasks s !! t) as [[| |]|] eqn:Ht; try by split.
    pose proof (count_pos isAwaitingPhase _ _ _ Ht eq_refl) as Hpos.
    assert (Hc : isChecking s = false).
    { destruct (isChecking s); [|done]. destruct Hflag as [Hf _]. specialize (Hf eq_refl). lia. }
    destruct r as [b|]; [destruct (b <=? lastBlock s)|]; simpl.
    + pose proof (count_insert isAwaitingPhase _ _ Finished _ Ht) as Ha.
      pose proof (count_insert isCheckingPhase _ _ Finished _ Ht) as He.
      simpl in Ha, He. split; [lia|]. split; [discriminate|lia].
    + pose proof (count_insert isAwaitingPhase _ _ (Checking b) _ Ht) as Ha.
      pose proof (count_insert isCheckingPhase _ _ (Checking b) _ Ht) as He.
      simpl in Ha, He. split; [lia|]. split; [lia|done].
    + pose proof (count_insert isAwaitingPhase _ _ Finished _ Ht) as Ha.
      pose proof (count_insert isCheckingPhase _ _ Finished _ Ht) as He.
      simpl in Ha, He. split; [lia|]. split; [discriminate|lia].
  - destruct (tasks s !! t) as [[|b|]|] eqn:Ht; try by split.
    pose proof (count_pos isCheckingPhase _ _ _ Ht eq_refl) as Hpos.
    pose proof (count_insert isAwaitingPhase _ _ Finished _ Ht) as Ha.
    pose proof (count_insert isCheckingPhase _ _ Finished _ Ht) as He.
    simpl in Ha, He. simpl. split; [lia|]. split; [discriminate|lia].
Qed.

Lemma guarded_run es : forall s, guarded s -> paced es s -> guarded (run es s).
Proof.
  induction es as [|e es IH]; intros s Hg Hp; [done|].
  destruct Hp as [He Hrest]. simpl. apply IH; [by apply guarded_step|done].
Qed.

End PollerFacts.

(** C8 (as amended).  In the block-polling monitor, as long as the timer
    does not fire while an invocation of [pollBlock] is still waiting for
    its block number, at most one cycle has evaluation calls outstanding at
    any time, and a tick that fires while one has is skipped entirely: no
    invocation is started or queued and no variable changes. *)
Theorem C8_pollBlock_guard (es : list Poller.Event) :
  Poller.paced es Poller.initial ->
  let s := Poller.run es Poller.initial in
  (Poller.executing s <= 1)%nat
  /\ (Poller.executing s = 1%nat -> Poller.pollBlock Poller.Tick s = s).
Proof.
  intros Hp s.
  destruct (guarded_run es Poller.initial guarded_initial Hp) as [Hone Hflag].
  fold s in Hone, Hflag. split; [lia|].
  intros H1. apply Hflag in H1. simpl. by rewrite H1.
Qed.

(** The theorem at a cycle on block 7 during which two ticks fire. *)
Lemma C8_pollBlock_guard_witness :
  Poller.run [Poller.Tick; Poller.BlockNumber 0 (Some 7); Poller.Tick; Poller.Tick]
             Poller.initial
  = Poller.mkP true 7 [Poller.Checking 7].
Proof.
  destruct (C8_pollBlock_guard [Poller.Tick; Poller.BlockNumber 0 (Some 7); Poller.Tick]) as [_ Hskip].
  - simpl. repeat split; reflexivity.
  - change (Poller.run [Poller.Tick; Poller.BlockNumber 0 (Some 7); Poller.Tick; Poller.Tick]
              Poller.initial)
      with (Poller.pollBlock Poller.Tick
              (Poller.run [Poller.Tick; Poller.BlockNumber 0 (Some 7); Poller.Tick]
                 Poller.initial)).
    rewrite Hskip; reflexivity.
Defined.

(** C8, as stated, fails: [poll] of the spread loggers has no guard, and a
    tick during a cycle starts a second one beside it; in [pollBlock] the
    flag is raised only after the block number has arrived, and two
    invocations that both passed the guard before that both start a cycle. *)
Lemma C8_counterexample :
  Poller.lexecuting
    (Poller.lrun [Poller.LTick; Poller.LBlockNumber 0 (Some 100);
                  Poller.LTick; Poller.LBlockNumber 1 (Some 101)] Poller.linitial) = 2%nat
  /\ Poller.executing
       (Poller.run [Poller.Tick; Poller.Tick;
                    Poller.BlockNumber 0 (Some 100); Poller.BlockNumber 1 (Some 101)]
                   Poller.initial) = 2%nat.
Proof. split; reflexivity. Qed.

(** ** Statistics and tracker of the Arbitrum logger *)

Section ArbFacts.

Import ArbLogger.

Implicit Types (m : gmap string Stats) (g : Globals).

Lemma updateStats_best name p raw net m m' s :
  updateStats p raw net m = Some m' ->
  m !! name = Some s ->
  exists s', m' !! name = Some s'
    /\ bestSpread s' = (if decide (p = name) then Z.max (bestSpread s) raw else bestSpread s).
Proof.
  unfold updateStats. intros Hu Hs.
  destruct (m !! p) as [sp|] eqn:Hp; [|discriminate]. injection Hu as <-.
  destruct (decide (p = name)) as [->|Hne].
  - rewrite lookup_insert_eq. eexists. split; [reflexivity|]. simpl.
    assert (sp = s) as -> by congruence.
    destruct (Z.gtb_spec raw (bestSpread s)); lia.
  - rewrite lookup_insert_ne by done. by exists s.
Qed.

Lemma bumpPersistent_best name p m s :
  m !! name = Some s ->
  exists s', bumpPersistent p m !! name = Some s' /\ bestSpread s' = bestSpread s.
Proof.
  intros Hs. unfold bumpPersistent, initStats.
  destruct (decide (p = name)) as [->|Hne].
  - rewrite Hs. rewrite Hs. rewrite lookup_insert_eq. by eexists.
  - destruct (m !! p) as [sp|] eqn:Hp.
    + rewrite Hp. rewrite lookup_insert_ne by done. by exists s.
    + rewrite lookup_insert_eq. rewrite !lookup_insert_ne by done. by exists s.
Qed.

Lemma trackPersistence_best name p dir spread block g s :
  stats g !! name = Some s ->
  exists s', stats (trackPersistence p dir spread block g).1 !! name = Some s'
    /\ bestSpread s' = bestSpread s.
Proof.
  intros Hs. unfold trackPersistence.
  destruct (THRESHOLD <=? spread).
  - destruct (spikeTracker g !! _); simpl; by exists s.
  - destruct (spikeTracker g !! _) as [sp|];
      [destruct (1 <=? count sp)%nat; [destruct (2 <=? count sp)%nat|]|]; simpl;
      try by exists s.
    by apply bumpPersistent_best.
Qed.

(** One evaluation moves a pair's best spread only upwards, and only to a
    spread observed for that pair. *)
Lemma pollTrips_best name p block trips : forall g s,
  stats g !! name = Some s ->
  exists s', stats (pollTrips p block trips g).1 !! name = Some s'
    /\ bestSpread s <= bestSpread s'
    /\ (bestSpread s' = bestSpread s
        \/ (p = name /\ exists t, t ∈ trips /\ bestSpread s' = t_spreadPct t)).
Proof.
  induction trips as [|t trips IH]; intros g s Hs; simpl.
  { exists s. split; [done|]. split; [lia|by left]. }
  unfold pollTrip.
  destruct (updateStats p (t_spreadPct t) (t_netPct t) (stats g)) as [m'|] eqn:Hu.
  2:{ simpl. exists s. split; [done|]. split; [lia|by left]. }
  destruct (updateStats_best name _ _ _ _ _ s Hu Hs) as (s1 & Hs1 & Hb1).
  destruct (trackPersistence p (t_direction t) (t_spreadPct t) block
              (mkGlobals (spikeTracker g) m')) as [g1 e1] eqn:Ht.
  destruct (trackPersistence_best name p (t_direction t) (t_spreadPct t) block
              (mkGlobals (spikeTracker g) m') s1 Hs1) as (s2 & Hs2 & Hb2).
  rewrite Ht in Hs2. simpl in Hs2.
  destruct (IH g1 s2 Hs2) as (s' & Hs' & Hle & Hor).
  destruct (pollTrips p block trips g1) as [g2 e2]. simpl in *.
  exists s'. split; [done|].
  destruct (decide (p = name)) as [->|Hne].
  - split; [lia|].
    destruct Hor as [Heq|(_ & t' & Ht' & Heq)].
    + destruct (Z.max_spec (bestSpread s) (t_spreadPct t)) as [[_ Hm]|[_ Hm]].
      * right. split; [done|]. exists t. split; [by left|lia].
      * left. lia.
    + right. split; [done|]. exists t'. split; [by right|done].
  - split; [lia|]. destruct Hor as [Heq|(Hp & _)]; [left; lia|done].
Qed.

Lemma pollAll_best name evals : forall g s,
  stats g !! name = Some s ->
  exists s', stats (pollAll evals g) !! name = Some s'
    /\ bestSpread s <= bestSpread s'
    /\ (bestSpread s' = bestSpread s
        \/ exists e t, e ∈ evals /\ e_pair e = name /\ t ∈ e_trips e
             /\ bestSpread s' = t_spreadPct t).
Proof.
  induction evals as [|e evals IH]; intros g s Hs; simpl.
  { exists s. split; [done|]. split; [lia|by left]. }
  destruct (pollTrips_best name (e_pair e) (e_block e) (e_trips e) g s Hs)
    as (s1 & Hs1 & Hle1 & Hor1).
  destruct (IH _ s1 Hs1) as (s' & Hs' & Hle & Hor).
  exists s'. split; [done|]. split; [lia|].
  destruct Hor as [Heq|(e' & t & He' & Hp & Ht & Heq)].
  - destruct Hor1 as [Heq1|(Hp & t & Ht & Heq1)]; [left; lia|].
    right. exists e, t. split; [by left|]. split; [done|]. split; [done|lia].
  - right. exists e', t. split; [by right|done].
Qed.

End ArbFacts.

(** C10.  [initStats] starts a pair's best spread at 0; an update replaces
    it only by a strictly larger spread observed for the pair; so after any
    evaluations the reported best spread is 0 or a positive observed spread,
    never negative, and it is 0 when every spread observed for the pair was
    negative. *)
Theorem C10_best_spread_floor :
  (forall name st,
     ArbLogger.bestSpread <$> ArbLogger.initStats name st !! name = Some 0)
  /\ (forall name raw net st st' s,
        ArbLogger.updateStats name raw net st = Some st' ->
        st !! name = Some s ->
        exists s', st' !! name = Some s'
          /\ (ArbLogger.bestSpread s' = ArbLogger.bestSpread s
              \/ (ArbLogger.bestSpread s < raw /\ ArbLogger.bestSpread s' = raw)))
  /\ (forall name evals tracker st0,
        let g := ArbLogger.pollAll evals
                   (ArbLogger.mkGlobals tracker (ArbLogger.initStats name st0)) in
        exists s, ArbLogger.stats g !! name = Some s
          /\ 0 <= ArbLogger.bestSpread s
          /\ (Forall (fun e => ArbLogger.e_pair e = name ->
                               Forall (fun t => ArbLogger.t_spreadPct t < 0)
                                      (ArbLogger.e_trips e)) evals ->
              ArbLogger.bestSpread s = 0)).
Proof.
  split; [|split].
  - intros name st. unfold ArbLogger.initStats. by rewrite lookup_insert_eq.
  - intros name raw net st st' s Hu Hs.
    destruct (updateStats_best name name raw net st st' s Hu Hs) as (s' & Hs' & Hb).
    exists s'. split; [done|]. rewrite decide_True in Hb by done.
    destruct (Z.max_spec (ArbLogger.bestSpread s) raw) as [[? Hm]|[? Hm]]; [right|left]; lia.
  - intros name evals tracker st0 g.
    destruct (pollAll_best name evals
                (ArbLogger.mkGlobals tracker (ArbLogger.initStats name st0))
                (ArbLogger.mkStats 0 0 0 0 0 0)) as (s & Hs & Hle & Hor).
    { simpl. unfold ArbLogger.initStats. apply lookup_insert_eq. }
    exists s. split; [exact Hs|]. simpl in Hle. split; [exact Hle|].
    intros Hneg. destruct Hor as [Heq|(e & t & He & Hp & Ht & Heq)]; [exact Heq|].
    rewrite Forall_forall in Hneg. specialize (Hneg e He Hp).
    rewrite Forall_forall in Hneg. specialize (Hneg t Ht). lia.
Qed.

(** The theorem at a pair whose three observed spreads are all negative. *)
Lemma C10_best_spread_floor_witness :
  ArbLogger.bestSpread <$>
    ArbLogger.stats
      (ArbLogger.pollAll
         [ArbLogger.mkEval "WETH/GNS" 1
            [ArbLogger.mkTrip "Uniswap→Camelot" (-3500) (-3550);
             ArbLogger.mkTrip "Camelot→Uniswap" (-6100) (-6150)];
          ArbLogger.mkEval "WETH/GNS" 2 [ArbLogger.mkTrip "Uniswap→Camelot" (-20) (-70)]]
         (ArbLogger.mkGlobals ∅ (ArbLogger.initStats "WETH/GNS" ∅))) !! "WETH/GNS"
  = Some 0.
Proof.
  destruct (proj2 (proj2 C10_best_spread_floor) "WETH/GNS"
              [ArbLogger.mkEval "WETH/GNS" 1
                 [ArbLogger.mkTrip "Uniswap→Camelot" (-3500) (-3550);
                  ArbLogger.mkTrip "Camelot→Uniswap" (-6100) (-6150)];
               ArbLogger.mkEval "WETH/GNS" 2 [ArbLogger.mkTrip "Uniswap→Camelot" (-20) (-70)]]
              ∅ ∅) as (s & Hs & _ & Hzero).
  rewrite Hs. simpl. f_equal. apply Hzero.
  repeat constructor.
Defined.

(** C9.  A below-threshold call on a key without an entry changes nothing:
    no event, no counter, the same tracker map, in the chain-agnostic logger
    and in the Arbitrum logger alike; so a sequence of below-threshold calls
    on idle keys, of any length, leaves everything as it was, and an empty
    tracker stays empty. *)
Theorem C9_idle_below_is_noop :
  (forall now pairName direction spread block notional g,
      spread < THRESHOLD ->
      spikeTracker g !! spikeKey pairName direction notional = None ->
      trackPersistence now pairName direction spread block notional g = (g, []))
  /\ (forall os g,
        Forall (fun o => o_spread o < THRESHOLD /\ spikeTracker g !! obsKey o = None) os ->
        observeAll os g = (g, []))
  /\ (forall pairName direction spread block g,
        spread < ArbLogger.THRESHOLD ->
        ArbLogger.spikeTracker g !! (pairName +:+ "_" +:+ direction) = None ->
        ArbLogger.trackPersistence pairName direction spread block g = (g, [])).
Proof.
  assert (Hone : forall now pairName direction spread block notional g,
      spread < THRESHOLD ->
      spikeTracker g !! spikeKey pairName direction notional = None ->
      trackPersistence now pairName direction spread block notional g = (g, [])).
  { intros now pairName direction spread block notional g Hlt Hidle.
    unfold trackPersistence. destruct (Z.leb_spec THRESHOLD spread); [lia|].
    rewrite Hidle. rewrite delete_id by exact Hidle. by destruct g. }
  split; [exact Hone|]. split.
  - induction os as [|o os IH]; intros g Hall; [done|].
    apply Forall_cons in Hall as [[Ho Hidle] Hos]. simpl.
    unfold observe. rewrite Hone; [|exact Ho|exact Hidle].
    rewrite (IH g Hos). reflexivity.
  - intros pairName direction spread block g Hlt Hidle.
    unfold ArbLogger.trackPersistence.
    destruct (Z.leb_spec ArbLogger.THRESHOLD spread); [lia|].
    rewrite Hidle. rewrite delete_id by exact Hidle. by destruct g.
Qed.

(** The theorem at three below-threshold calls on an empty tracker. *)
Lemma C9_idle_below_is_noop_witness :
  observeAll [mkObs 0 "WETH/USDC" "uni→camelot" 1000 101 1000;
              mkObs 1000 "WETH/USDC" "camelot→uni" (-2500) 101 1000;
              mkObs 2000 "WETH/USDC" "uni→camelot" 2999 102 300] emptyGlobals
  = (emptyGlobals, []).
Proof.
  apply (proj1 (proj2 C9_idle_below_is_noop)).
  repeat constructor.
Defined.
